(* ===== verification/_CoqProject ===== *)
-Q . S2P
Prelude.v
Text.v
Undo.v
Editor.v
EditorUndo.v
Trie.v
SpellCheck.v
