(* ===== verification/Prelude.v ===== *)
(** * Wurd: a verification development of the editor core and spell checker

    The program (src/Wurd) is a terminal text editor written for a
    data-structures course.  Three classes carry its logic:

    - [StudentUndo] (src/Wurd/StudentUndo.{h,cpp}): a stack of primitive
      edit records ([submit]), popped and coalesced by [get] into one
      inverse action (a run of typed characters becomes one DELETE of a
      range, a run of forward deletes/backspaces becomes one INSERT of a
      reconstructed string, a split becomes a JOIN and a join a SPLIT);
      [clear] empties it.
    - [StudentTextEditor] (src/Wurd/StudentTextEditor.cpp): a
      [std::list<std::string>] of lines, a cursor [(m_r, m_c)] and a list
      iterator [m_it] that must point at row [m_r].  Every edit ([insert],
      [del], [backspace], [enter]) submits one record to the undo object it
      was constructed with; [undo] asks that object for one coalesced action
      and replays it without logging; [load]/[reset] clear the log.
    - [StudentSpellCheck] (src/Wurd/StudentSpellCheck.{h,cpp}): a trie of
      nodes with 27 children (26 letters and the apostrophe) holding the
      dictionary; [load], [checkWord], [spellCheck] (suggestions that
      change one character) and [spellCheckLine] (the misspelt tokens of
      a line).  The editor core does not call it.

    The editor and the undo log interact only through the abstract class
    [Undo] (Undo.h, not in src/): [submit], [get], [clear].

    ** Files of the development

    - [Prelude] (this file): the [wurd_scope] notation [let!] for code
      that can fail, the list surgery every component uses ([ins_at],
      [ins_all], [del_range]) with its lemmas, the [wurd] hint databases
      and the tactics [inv_opt], [destruct_let], [len].
    - [Text]: [std::string] as [list ascii] ([insert], [erase], [substr]
      with their [out_of_range] exceptions as [None], [resize]), the
      buffer-level split and join of rows, and [std::getline] over a
      stream ([getlines]), shared by both loaders.
    - [Undo]: [Undo::Action], [StudentUndo::ActData], the stack (top
      first), [Module StudentUndo] with [submit], [clear] and [get] (its
      two batching loops [batch_delete] and [batch_insert] as structural
      recursion on the stack); the meaning of a record ([redo], [replay])
      and of a coalesced action ([out_effect]); the interface [UndoLog]
      (a class of operations) with its laws [UndoLogSpec], and the
      instances [student_undo] and [student_undo_spec].
    - [Editor]: [StudentTextEditor] in a Section over any [UndoLog]: the
      state record [editor] (the iterator as a row index), every member
      function ([move], [del], [backspace], [insert], [enter], [getPos],
      [getLines], [undo], [reset], [load], [save]), the invariant [wf]
      (iterator at the cursor row, cursor in range, buffer non-empty) and
      its preservation.
    - [EditorUndo]: the editor with [StudentUndo]: the log is a trace of
      the buffer ([consistent], [logged]), every edit extends the trace,
      [undo] rewinds it by the group [get] pops, undoing everything
      restores the loaded text; the commands of a session ([run],
      [run_all]) and the scenarios of the spec.
    - [Trie]: [Module StudentSpellCheck] with the node type [trie]
      ([Null] or [Node val end next], the array [next] as a function of
      the index), [getIndex], [tolower], [checkWord], [load]; the words a
      trie stands for ([walk], [in_trie]) and the label invariant
      [vals_ok].
    - [SpellCheck]: [spellCheck] (its loops over [j], [l] and [k] as
      [word_loop], [letters_loop]/[letter_step] and [follow]) and
      [spellCheckLine] ([scan], [break_step]); the reference definitions
      [suggest_spec] and [tokens_from]/[problems_of] they are proved
      equal to.

    ** What is proved (claims C1 .. C28)

    - Undo log: [get] undoes exactly the records it pops, for every mix of
      records the editor submits (C2); the coalescing of typing, backspace
      and forward-delete runs (C4-C6); every INSERT record has column at
      least 1 in every state reached from [load], so [cur->col - 1] never
      goes below 0 (C16).
    - Editor: [wf] holds after every operation (C13); [getLines] results
      and errors (C17, C18); the [load]/[save] round trip (C19); [move]
      right then left (C20); the edge cases that change nothing (C15).
    - Editor with undo: every edit logs the record that describes it
      (C14); [undo] refines rewinding the trace (C3); after [load], any
      session runs without failure and undoing as often as there are
      records restores the loaded text (C1); the spec's scenarios and the
      places the code departs from it (C7-C12).
    - Spell checker: [load] then [checkWord] is membership in the
      normalised dictionary (C21); [checkWord] reads [next[-1]] exactly
      on words with a character that is not a letter or apostrophe
      (C22); [spellCheck] equals [suggest_spec] (C23), its suggestions
      are the one-substitution dictionary words (C24, C25), and their
      number is bounded only by [max_suggestions + 25] (C26, whose witness
      exceeds the limit); [spellCheckLine] reports exactly the misspelt
      maximal tokens (C27, C28).

    ** Integers, bounds and fuel

    Rows, columns and counts are [nat]: the code never makes them
    negative (C16 covers the one subtraction that could), and [int]
    overflow needs lines of 2^31 characters.  [Z] is kept where the code
    uses [-1]: the arguments and result of [getLines], [getIndex],
    [max_suggestions] and [SpellCheck::Position].  Every loop of the
    program is structural recursion on a list (the stack, the buffer, the
    characters of a word or a line, the 27 indices), so no definition
    needs fuel and every one is total.

    ** Not modelled

    The user interface and command dispatch (not in src/); the streams
    of [load]/[save] beyond the contents they read or write (a file is
    [Some contents] or [None] when it cannot be opened); the destructors
    (they only free memory); [tolower] beyond the C locale on ASCII.
*)

From stdpp Require Export base list.
From Stdlib Require Export Ascii.

(** Characters are compared with [decide]. *)
#[export] Instance ascii_eq_dec : EqDecision ascii := Ascii.ascii_dec.

Declare Scope wurd_scope.
Delimit Scope wurd_scope with wurd.
Open Scope wurd_scope.

(** Fallible code: [let! x := e in k] propagates a failure ([None]) of
    [e], the way an exception thrown by [std::string] propagates out of
    the calling method. *)
Notation "'let!' x := e 'in' k" :=
  (match e with Some x => k | None => None end)
  (at level 10, x name, e at level 100, k at level 200) : wurd_scope.

(** ** List surgery shared by all components *)

Section Surgery.
Context {A : Type}.

(** Insert one element before position [i] ([std::list::insert],
    [std::string::insert(iterator, ch)]). *)
Definition ins_at (i : nat) (x : A) (l : list A) : list A :=
  take i l ++ x :: drop i l.

(** Insert a whole sequence before position [i]. *)
Definition ins_all (i : nat) (s l : list A) : list A :=
  take i l ++ s ++ drop i l.

(** Remove [n] elements starting at position [i] (clamped at the end,
    as [std::string::erase(pos, n)] does). *)
Definition del_range (i n : nat) (l : list A) : list A :=
  take i l ++ drop (i + n) l.

Lemma length_ins_at i x l :
  i <= length l -> length (ins_at i x l) = S (length l).
Proof.
  intros Hi. unfold ins_at. rewrite length_app. simpl.
  rewrite length_take, length_drop. lia.
Qed.

Lemma length_ins_all i s l :
  i <= length l -> length (ins_all i s l) = length s + length l.
Proof.
  intros Hi. unfold ins_all. rewrite !length_app, length_take, length_drop. lia.
Qed.

Lemma length_del_range i n l :
  i + n <= length l -> length (del_range i n l) = length l - n.
Proof.
  intros Hi. unfold del_range. rewrite length_app, length_take, length_drop. lia.
Qed.

Lemma ins_all_nil i l : ins_all i [] l = take i l ++ drop i l.
Proof. reflexivity. Qed.

Lemma ins_all_singleton i x l : ins_all i [x] l = ins_at i x l.
Proof. reflexivity. Qed.

(** Inserting [x] into the middle of an inserted block is inserting into
    the block. *)
Lemma ins_at_ins_all p j x s l :
  p <= length l -> j <= length s ->
  ins_at (p + j) x (ins_all p s l) = ins_all p (ins_at j x s) l.
Proof.
  intros Hp Hj. unfold ins_at, ins_all.
  rewrite take_app_ge, drop_app_ge by (rewrite length_take; lia).
  rewrite length_take, Nat.min_l by lia.
  replace (p + j - p) with j by lia.
  rewrite take_app_le, drop_app_le by lia.
  rewrite <- !app_assoc. reflexivity.
Qed.

(** Deleting one more element past a range that ends where [x] was
    inserted is deleting the range. *)
Lemma del_range_ins_at_end i n x l :
  i + n <= length l ->
  del_range i (S n) (ins_at (i + n) x l) = del_range i n l.
Proof.
  intros H. unfold del_range, ins_at.
  rewrite take_app_le by (rewrite length_take; lia).
  rewrite take_take, Nat.min_l by lia.
  rewrite drop_app_ge by (rewrite length_take; lia).
  rewrite length_take, Nat.min_l by lia.
  replace (i + S n - (i + n)) with 1 by lia. reflexivity.
Qed.

(** Removing the element at [i] and putting it back restores the list. *)
Lemma ins_at_del_range i x l :
  l !! i = Some x -> ins_at i x (del_range i 1 l) = l.
Proof.
  intros H. unfold ins_at, del_range.
  assert (i < length l) by (apply lookup_lt_Some in H; lia).
  rewrite take_app_le by (rewrite length_take; lia).
  rewrite take_take, Nat.min_id.
  rewrite drop_app_ge by (rewrite length_take; lia).
  rewrite length_take, Nat.min_l, Nat.sub_diag by lia. simpl.
  rewrite drop_0, Nat.add_1_r, <- (drop_S l x i H). apply take_drop.
Qed.

(** Removing an inserted block restores the list. *)
Lemma del_range_ins_all i s l :
  i <= length l -> del_range i (length s) (ins_all i s l) = l.
Proof.
  intros H. unfold del_range, ins_all.
  rewrite take_app_le by (rewrite length_take; lia).
  rewrite take_take, Nat.min_id.
  rewrite drop_app_ge by (rewrite length_take; lia).
  rewrite length_take, Nat.min_l by lia.
  replace (i + length s - i) with (length s) by lia.
  rewrite drop_app_length. apply take_drop.
Qed.

(** Removing a freshly inserted element restores the list. *)
Lemma del_range_ins_at i x l :
  i <= length l -> del_range i 1 (ins_at i x l) = l.
Proof.
  intros H. pose proof (del_range_ins_at_end i 0 x l) as E.
  rewrite Nat.add_0_r in E. rewrite E by lia.
  unfold del_range. rewrite Nat.add_0_r. apply take_drop.
Qed.

Lemma del_range_0 i l : del_range i 0 l = l.
Proof. unfold del_range. rewrite Nat.add_0_r. apply take_drop. Qed.

Lemma ins_all_nil_id i l : ins_all i [] l = l.
Proof. apply take_drop. Qed.

(** Two adjacent deletions are one deletion of the joint range. *)
Lemma del_range_merge i n l :
  i < length l -> del_range i 1 (del_range (S i) n l) = del_range i (S n) l.
Proof.
  intros H. unfold del_range.
  rewrite take_app_le by (rewrite length_take; lia).
  rewrite take_take, Nat.min_l by lia.
  rewrite drop_app_ge by (rewrite length_take; lia).
  rewrite length_take, Nat.min_l by lia.
  replace (i + 1 - S i) with 0 by lia. rewrite drop_0.
  do 2 f_equal. lia.
Qed.

(** Taking the first [i] elements after an update at [i] or beyond. *)
Lemma take_insert_ge (l : list A) i j x :
  i <= j -> take i (<[j:=x]> l) = take i l.
Proof. intros. rewrite take_insert. case_decide; [lia | done]. Qed.
End Surgery.

Create HintDb wurd.
Create Rewrite HintDb wurd_len.
#[export] Hint Rewrite @length_ins_at @length_ins_all @length_del_range
  using (autorewrite with wurd_len; simpl; lia) : wurd_len.
#[export] Hint Rewrite @length_app @length_take @length_drop @length_insert
  : wurd_len.

(** ** Tactics *)

(** Invert equations between options and pairs that the fallible models
    produce. *)
Ltac inv_opt :=
  repeat match goal with
  | H : Some _ = Some _ |- _ => injection H as H
  | H : None = Some _ |- _ => discriminate H
  | H : Some _ = None |- _ => discriminate H
  | H : (_, _) = (_, _) |- _ => injection H as H
  end; subst.

(** Case on the [match] that a [let!] unfolds to, keeping the equation. *)
Ltac destruct_let :=
  match goal with
  | H : context [match ?e with Some _ => _ | None => _ end] |- _ =>
      let E := fresh "E" in destruct e eqn:E
  | |- context [match ?e with Some _ => _ | None => _ end] =>
      let E := fresh "E" in destruct e eqn:E
  end.

(** Length goals over list surgery. *)
Ltac len := autorewrite with wurd_len in *; simpl in *; lia.

(** Deleting after position [i] leaves at least [i] elements. *)
Lemma del_range_length_ge {A} (l : list A) i n :
  i <= length l -> i <= length (del_range i n l).
Proof. intros H. unfold del_range. rewrite length_app, length_take. lia. Qed.

Lemma ins_at_end {A} (l : list A) x : ins_at (length l) x l = l ++ [x].
Proof. unfold ins_at. by rewrite take_ge, drop_ge. Qed.

Section MoreSurgery.
Context {A : Type}.
Implicit Types l : list A.

(** Two deletions at the same position are one longer deletion. *)
Lemma del_range_twice i k l :
  i <= length l -> del_range i 1 (del_range i k l) = del_range i (S k) l.
Proof.
  intros H. unfold del_range.
  rewrite take_app_le, take_take, Nat.min_id by (rewrite length_take; lia).
  rewrite drop_app_ge by (rewrite length_take; lia).
  rewrite length_take, Nat.min_l by lia. replace (i + 1 - i) with 1 by lia.
  rewrite drop_drop. do 2 f_equal. lia.
Qed.

Lemma lookup_del_range_lt i n j l : j < i -> del_range i n l !! j = l !! j.
Proof.
  intros H. unfold del_range. destruct (decide (j < length l)).
  - rewrite lookup_app_l by (rewrite length_take; lia). by rewrite lookup_take_lt.
  - rewrite lookup_ge_None_2 by (rewrite length_app, length_take, length_drop; lia).
    symmetry. apply lookup_ge_None_2. lia.
Qed.

Lemma lookup_del_range_here i n l :
  i <= length l -> del_range i n l !! i = l !! (i + n).
Proof.
  intros H. unfold del_range. rewrite lookup_app_r by (rewrite length_take; lia).
  rewrite length_take, Nat.min_l, Nat.sub_diag by lia.
  by rewrite lookup_drop, Nat.add_0_r.
Qed.

Lemma take_S_drop i k l x :
  l !! i = Some x -> take (S k) (drop i l) = x :: take k (drop (S i) l).
Proof. intros H. by rewrite (drop_S l x i H). Qed.

Lemma delete_ins_at i x l : i <= length l -> delete i (ins_at i x l) = l.
Proof.
  intros H. rewrite delete_take_drop. unfold ins_at.
  rewrite take_app_le, take_take, Nat.min_id by (rewrite length_take; lia).
  rewrite drop_app_ge by (rewrite length_take; lia).
  rewrite length_take, Nat.min_l by lia. replace (S i - i) with 1 by lia.
  simpl. rewrite drop_0. apply take_drop.
Qed.
End MoreSurgery.

(** [List.map] of the Standard Library is stdpp's [fmap] on lists. *)
Lemma map_is_fmap {A B} (f : A -> B) (l : list A) : map f l = f <$> l.
Proof. induction l as [|x l IH]; simpl; [done|by rewrite IH]. Qed.

Lemma filter_none {A} (P : A -> Prop) `{!forall x, Decision (P x)} (l : list A) :
  (forall x, ~ P x) -> filter P l = [].
Proof. intros HP. induction l as [|x l IH]; [done|]. by rewrite filter_cons_False. Qed.
