(* ===== verification/Text.v ===== *)
(** * Text: [std::string] lines and the buffer of lines

    A line is a [std::string], modelled as [list ascii]; the buffer is the
    editor's [std::list<std::string>], modelled as a list of lines indexed
    from 0.  The [std::string] members the sources call are modelled with
    their failure behaviour: [insert(pos, str)], [erase(pos, n)] and
    [substr(pos)] throw [std::out_of_range] when [pos > size()], which is
    [None] here; [resize(n)] pads with ['\0'].  The buffer-level
    operations [buf_split] and [buf_join] are the two structural edits.
    [getlines] is the [std::getline] loop both loaders run over a
    stream. *)

From S2P Require Import Prelude.

Abbreviation line := (list ascii).
Abbreviation buffer := (list line).

(** ** [std::string] members *)

(** [s.insert(pos, str)] *)
Definition str_insert (pos : nat) (s str : line) : option line :=
  if decide (pos <= length s) then Some (ins_all pos str s) else None.

(** [s.erase(pos, n)] *)
Definition str_erase (pos n : nat) (s : line) : option line :=
  if decide (pos <= length s) then Some (del_range pos n s) else None.

(** [s.substr(pos)] *)
Definition str_substr (pos : nat) (s : line) : option line :=
  if decide (pos <= length s) then Some (drop pos s) else None.

(** [s.resize(n)]: truncates, or pads with the null character. *)
Definition str_resize (n : nat) (s : line) : line :=
  take n s ++ replicate (n - length s) "000"%char.

(** [s[i]] for [i <= size()] ([s[size()]] is the terminating null). *)
Definition str_at (s : line) (i : nat) : ascii :=
  default "000"%char (s !! i).

(** [std::getline] over a whole stream (the editor's file and the
    spell checker's dictionary): the pieces between ['\n']s; a
    final piece is returned only if it is not empty. *)
Fixpoint getlines (s : list ascii) : list line :=
  match s with
  | [] => []
  | ch :: s' =>
      if decide (ch = "010"%char) then [] :: getlines s'
      else match getlines s' with
           | [] => [[ch]]
           | l :: ls => (ch :: l) :: ls
           end
  end.

(** ** Buffer-level structural edits *)

(** Split row [r] at column [c]: the tail of the row becomes a new row
    below it.  Fails when the row does not exist or [c] is past its end. *)
Definition buf_split (r c : nat) (L : buffer) : option buffer :=
  let! l := L !! r in
  if decide (c <= length l)
  then Some (take r L ++ take c l :: drop c l :: drop (S r) L)
  else None.

(** Join row [r + 1] into row [r] at column [c] (the undo of a split
    inserts the next row's text at the recorded column). *)
Definition buf_join (r c : nat) (L : buffer) : option buffer :=
  let! l := L !! r in
  let! n := L !! S r in
  if decide (c <= length l)
  then Some (take r L ++ ins_all c n l :: drop (S (S r)) L)
  else None.

(** ** Lemmas *)

Lemma str_resize_le n s : n <= length s -> str_resize n s = take n s.
Proof.
  intros H. unfold str_resize. replace (n - length s) with 0 by lia.
  apply app_nil_r.
Qed.

Lemma str_insert_ok pos s str :
  pos <= length s -> str_insert pos s str = Some (ins_all pos str s).
Proof. intros H. unfold str_insert. case_decide; [done | lia]. Qed.

Lemma str_erase_ok pos n s :
  pos <= length s -> str_erase pos n s = Some (del_range pos n s).
Proof. intros H. unfold str_erase. case_decide; [done | lia]. Qed.

Lemma str_substr_ok pos s :
  pos <= length s -> str_substr pos s = Some (drop pos s).
Proof. intros H. unfold str_substr. case_decide; [done | lia]. Qed.

Lemma str_insert_Some pos s str s' :
  str_insert pos s str = Some s' -> pos <= length s /\ s' = ins_all pos str s.
Proof. unfold str_insert. case_decide; intros; inv_opt; auto. Qed.

Lemma str_erase_Some pos n s s' :
  str_erase pos n s = Some s' -> pos <= length s /\ s' = del_range pos n s.
Proof. unfold str_erase. case_decide; intros; inv_opt; auto. Qed.

#[export] Hint Rewrite str_insert_ok str_erase_ok str_substr_ok str_resize_le
  using lia : wurd_len.

(** Replacing row [r] of a buffer, seen through [take]/[drop]. *)
Lemma insert_take_drop (L : buffer) r x :
  r < length L -> <[r:=x]> L = take r L ++ x :: drop (S r) L.
Proof.
  intros H. revert r H. induction L as [|y L IH]; intros [|r] H; simpl in *;
    [lia | lia | done |]. f_equal. apply IH. lia.
Qed.

Lemma take_drop_lookup (L : buffer) r l :
  L !! r = Some l -> take r L ++ l :: drop (S r) L = L.
Proof.
  intros H. rewrite <- insert_take_drop by (apply lookup_lt_Some in H; lia).
  by apply list_insert_id.
Qed.

Lemma buf_split_Some r c L L' :
  buf_split r c L = Some L' ->
  exists l, L !! r = Some l /\ c <= length l /\
            L' = take r L ++ take c l :: drop c l :: drop (S r) L.
Proof.
  unfold buf_split. destruct (L !! r) as [l|]; [|done].
  case_decide; intros; inv_opt; eauto.
Qed.

(** The buffer surgery that [buf_split] and [buf_join] perform, on rows
    around [r]. *)
Lemma lookup_split_rows (L : buffer) r a b :
  r <= length L ->
  (take r L ++ a :: b :: drop (S r) L) !! r = Some a /\
  (take r L ++ a :: b :: drop (S r) L) !! S r = Some b.
Proof.
  intros H. rewrite !lookup_app_r by (rewrite length_take; lia).
  rewrite length_take, Nat.min_l by lia.
  rewrite Nat.sub_diag, Nat.sub_succ_l, Nat.sub_diag by lia. done.
Qed.

(** A prefix of [r] rows followed by replacement rows. *)
Lemma take_splice (L : buffer) r xs :
  r <= length L -> take r (take r L ++ xs) = take r L.
Proof.
  intros H. rewrite take_app_le by (rewrite length_take; lia).
  by rewrite take_take, Nat.min_id.
Qed.

Lemma drop_splice (L : buffer) r k xs :
  r <= length L -> drop (r + k) (take r L ++ xs) = drop k xs.
Proof.
  intros H. rewrite drop_app_ge by (rewrite length_take; lia).
  rewrite length_take, Nat.min_l by lia. f_equal. lia.
Qed.

Lemma ins_all_take_drop c (l : line) :
  c <= length l -> ins_all c (drop c l) (take c l) = l.
Proof.
  intros H. unfold ins_all.
  rewrite take_take, Nat.min_id, (drop_ge (take c l)), app_nil_r
    by (rewrite length_take; lia).
  apply take_drop.
Qed.

(** Joining back what a split separated restores the buffer. *)
Lemma buf_join_split r c L L' :
  buf_split r c L = Some L' -> buf_join r c L' = Some L.
Proof.
  intros HS. apply buf_split_Some in HS as (l & Hl & Hc & ->).
  assert (r < length L) by (apply lookup_lt_Some in Hl; lia).
  unfold buf_join. destruct (lookup_split_rows L r (take c l) (drop c l))
    as [-> ->]; [lia|].
  rewrite length_take, Nat.min_l by lia. case_decide; [|lia].
  rewrite take_splice by lia.
  replace (S (S r)) with (r + 2) by lia. rewrite drop_splice by lia. simpl.
  rewrite ins_all_take_drop by lia. f_equal. by apply take_drop_lookup.
Qed.

Lemma buf_join_Some r c L L' :
  buf_join r c L = Some L' ->
  exists l n, L !! r = Some l /\ L !! S r = Some n /\ c <= length l /\
              L' = take r L ++ ins_all c n l :: drop (S (S r)) L.
Proof.
  unfold buf_join. destruct (L !! r) as [l|]; [|done].
  destruct (L !! S r) as [n|]; [|done].
  case_decide; intros; inv_opt; eauto 10.
Qed.

Lemma take_drop_lookup2 (L : buffer) r a b :
  L !! r = Some a -> L !! S r = Some b ->
  take r L ++ a :: b :: drop (S (S r)) L = L.
Proof.
  intros Ha Hb. rewrite <- (drop_S L b (S r) Hb).
  by apply take_drop_lookup.
Qed.

Lemma ins_all_end (l n : line) : ins_all (length l) n l = l ++ n.
Proof. unfold ins_all. by rewrite take_ge, drop_ge, app_nil_r. Qed.

(** Splitting a row again where a join glued two rows restores them. *)
Lemma buf_split_join r L L' l :
  L !! r = Some l ->
  buf_join r (length l) L = Some L' -> buf_split r (length l) L' = Some L.
Proof.
  intros Hl HJ. apply buf_join_Some in HJ as (l' & n & Hl' & Hn & _ & ->).
  rewrite Hl in Hl'. injection Hl' as <-.
  assert (S r < length L) by (apply lookup_lt_Some in Hn; lia).
  rewrite ins_all_end. unfold buf_split.
  rewrite lookup_app_r by (rewrite length_take; lia).
  rewrite length_take, Nat.min_l, Nat.sub_diag by lia. simpl.
  rewrite length_app. case_decide; [|lia].
  rewrite take_app_length, drop_app_length, take_splice by lia.
  replace (S r) with (r + 1) by lia. rewrite drop_splice by lia. simpl.
  replace (r + 1) with (S r) by lia. f_equal. by apply take_drop_lookup2.
Qed.

(** Two updates of the same row that agree determine each other. *)
Lemma insert_row_cancel (A B : buffer) r x y a :
  <[r:=x]> A = <[r:=y]> B -> A !! r = Some a -> A = <[r:=a]> B.
Proof.
  intros E Ha. transitivity (<[r:=a]> (<[r:=x]> A)).
  - by rewrite list_insert_insert_eq, list_insert_id.
  - by rewrite E, list_insert_insert_eq.
Qed.

Lemma lookup_insert_row (A : buffer) r x a :
  A !! r = Some a -> <[r:=x]> A !! r = Some x.
Proof. intros H. apply list_lookup_insert_eq. by eapply lookup_lt_Some. Qed.

(** The row an update wrote, read back from two equal updated buffers. *)
Lemma insert_row_inj (A B : buffer) r x y a :
  <[r:=x]> A = <[r:=y]> B -> A !! r = Some a -> r < length B -> x = y.
Proof.
  intros E Ha Hb. pose proof (lookup_insert_row A r x a Ha) as H1.
  rewrite E, list_lookup_insert_eq in H1 by done. congruence.
Qed.

(** ** Row lookups after the list surgery the editor performs *)

Lemma lookup_ins_at_here {A} (l : list A) i x :
  i <= length l -> ins_at i x l !! i = Some x.
Proof.
  intros H. unfold ins_at. rewrite lookup_app_r by (rewrite length_take; lia).
  rewrite length_take, Nat.min_l, Nat.sub_diag by lia. done.
Qed.

Lemma lookup_ins_at_lt {A} (l : list A) i j x :
  j < i -> i <= length l -> ins_at i x l !! j = l !! j.
Proof.
  intros H H'. unfold ins_at.
  rewrite lookup_app_l by (rewrite length_take; lia). by rewrite lookup_take_lt.
Qed.

Lemma length_delete_lt {A} (l : list A) i :
  i < length l -> length (delete i l) = length l - 1.
Proof. intros H. apply length_delete. by apply lookup_lt_is_Some_2. Qed.

#[export] Hint Rewrite @length_delete_lt using lia : wurd_len.

(** Removing row [r + 1] and overwriting row [r] ([backspace], the
    [JOIN] of [undo]). *)
Lemma insert_delete_next (L : buffer) r x :
  S r < length L ->
  <[r := x]> (delete (S r) L) = take r L ++ x :: drop (S (S r)) L.
Proof.
  intros H. rewrite insert_take_drop by (rewrite length_delete_lt; lia).
  rewrite delete_take_drop. f_equal.
  - rewrite take_app_le by (rewrite length_take; lia).
    by rewrite take_take, Nat.min_l by lia.
  - f_equal. rewrite drop_app_ge by (rewrite length_take; lia).
    rewrite length_take, Nat.min_l by lia. replace (S r - S r) with 0 by lia. done.
Qed.

(** Removing row [r] and overwriting the row that moved into its place
    ([del] at the end of a line). *)
Lemma insert_delete_here (L : buffer) r x :
  S r < length L ->
  <[r := x]> (delete r L) = take r L ++ x :: drop (S (S r)) L.
Proof.
  intros H. rewrite insert_take_drop by (rewrite length_delete_lt; lia).
  rewrite delete_take_drop. f_equal.
  - by rewrite take_splice by lia.
  - f_equal. replace (S r) with (r + 1) at 1 by lia.
    rewrite drop_splice by lia. rewrite drop_drop. f_equal. lia.
Qed.

(** Overwriting row [r] and inserting a row after it ([enter], the
    [SPLIT] of [undo]). *)
Lemma ins_at_after_insert (L : buffer) r x y :
  r < length L ->
  ins_at (S r) y (<[r := x]> L) = take r L ++ x :: y :: drop (S r) L.
Proof.
  intros H. rewrite insert_take_drop by lia. unfold ins_at.
  rewrite take_app_ge, drop_app_ge by (rewrite length_take; lia).
  rewrite length_take, Nat.min_l by lia. replace (S r - r) with 1 by lia.
  simpl. by rewrite <- app_assoc.
Qed.

Lemma delete_lookup_next (L : buffer) r :
  delete r L !! r = L !! S r.
Proof. apply list_lookup_delete_ge. lia. Qed.

(** Putting back a deleted range. *)
Lemma ins_all_del_range {A} i n (l : list A) :
  i <= length l -> ins_all i (take n (drop i l)) (del_range i n l) = l.
Proof.
  intros H. unfold ins_all, del_range.
  rewrite take_app_le, take_take, Nat.min_id by (rewrite length_take; lia).
  rewrite drop_app_ge by (rewrite length_take; lia).
  rewrite length_take, Nat.min_l, Nat.sub_diag, drop_0 by lia.
  rewrite <- drop_drop, take_drop. apply take_drop.
Qed.

(** Splitting again a row that was glued from rows [r] and [r + 1]. *)
Lemma resplit_joined (L : buffer) r l n :
  L !! r = Some l -> L !! S r = Some n ->
  ins_at (S r) n (<[r := str_resize (length l) (l ++ n)]>
    (take r L ++ (l ++ n) :: drop (S (S r)) L)) = L.
Proof.
  intros Hl Hn. assert (S r < length L) by (eapply lookup_lt_Some; eauto).
  rewrite str_resize_le by (rewrite length_app; lia).
  rewrite take_app_length.
  rewrite ins_at_after_insert by (rewrite length_app, length_take; simpl; lia).
  rewrite take_splice by lia.
  replace (S r) with (r + 1) at 1 by lia. rewrite drop_splice by lia. simpl.
  by apply take_drop_lookup2.
Qed.

(** ** Reading lines back *)

Lemma getlines_line (l rest : line) :
  ~ In "010"%char l -> getlines (l ++ "010"%char :: rest) = l :: getlines rest.
Proof.
  induction l as [|ch l IH]; intros Hn; simpl; [done|].
  rewrite decide_False by (intros ->; apply Hn; left; done).
  rewrite IH by (intros ?; apply Hn; right; done). done.
Qed.

Lemma getlines_save (ls : buffer) :
  Forall (fun l => ~ In "010"%char l) ls ->
  getlines (concat (map (fun l => l ++ ["010"%char]) ls)) = ls.
Proof.
  induction 1 as [|l ls Hl _ IH]; simpl; [done|].
  rewrite <- app_assoc. simpl. by rewrite getlines_line, IH.
Qed.
