(* ===== verification/Undo.v ===== *)
(** * Undo: the undo log [StudentUndo]

    [StudentUndo] (src/Wurd/StudentUndo.{h,cpp}) keeps a
    [std::stack<ActData*>]; here the stack is a list whose head is the top.
    [submit] pushes one record, [clear] pops everything and [get] pops the
    top record and, for a character record, keeps popping while the next
    record continues the same run, returning one coalesced inverse action
    through the out-parameters [row], [col], [count] and [text] (the
    [params] record).  The two [while] loops of [get] pop one record per
    iteration, so they are structural recursion on the stack.

    The meaning of a record is the edit the editor made when it submitted
    it ([redo]); the meaning of a coalesced action is the change the editor
    makes to the buffer when it replays it ([out_effect]).  The central
    theorem [get_sound] says that the action [get] returns undoes exactly
    the records it pops.  The class [UndoLog] is the [Undo] interface that
    the editor is written against and [UndoLogSpec] the laws the editor's
    proofs use; [StudentUndo] is the instance. *)

From S2P Require Import Prelude Text.

#[local] Open Scope char_scope.

(** ** Data *)

(** [Undo::Action] (Undo.h). *)
Inductive action := ERROR | INSERT | SPLIT | DELETE | JOIN.

#[export] Instance action_eq_dec : EqDecision action.
Proof. solve_decision. Defined.

(** [StudentUndo::ActData] *)
Record actdata := ActData {
  act : action;
  act_row : nat;
  act_col : nat;
  act_ch : ascii;
}.

(** [std::stack<ActData*> m_stack], top first. *)
Abbreviation stack := (list actdata).

(** The out-parameters of [get]: [int& row, int& col, int& count,
    std::string& text]. *)
Record params := Params {
  p_row : nat;
  p_col : nat;
  p_count : nat;
  p_text : line;
}.

(** ** Operations *)

Module StudentUndo.

(** [void submit(Action action, int row, int col, char ch = 0)] *)
Definition submit (a : action) (row col : nat) (ch : ascii) (st : stack) : stack :=
  ActData a row col ch :: st.

(** [void clear()] *)
Definition clear (st : stack) : stack := [].

(** The [while] loop of the [DELETE] branch.  [txt] is [textList] and
    [lastIns] the position of the iterator [lastIns] in it.  A record
    continues the run when it is a [DELETE] on the same row whose column
    equals the current one (a forward delete: insert before [lastIns]) or
    is one more (a backspace: insert after [lastIns]). *)
Fixpoint batch_delete (cur : actdata) (txt : line) (lastIns : nat) (st : stack)
    : line * stack :=
  match st with
  | [] => (txt, [])
  | temp :: st' =>
      if decide (act temp = act cur) then
        if decide (act_row cur = act_row temp /\
                   (act_col cur = act_col temp \/ S (act_col cur) = act_col temp))
        then
          if decide (act_col cur = act_col temp)
          then batch_delete temp (ins_at lastIns (act_ch temp) txt) lastIns st'
          else batch_delete temp (ins_at (S lastIns) (act_ch temp) txt) (S lastIns) st'
        else (txt, st)
      else (txt, st)
  end.

(** The [while] loop of the [INSERT] branch: a record continues the run
    when it is an [INSERT] on the same row one column to the left. *)
Fixpoint batch_insert (cur : actdata) (count : nat) (st : stack)
    : nat * actdata * stack :=
  match st with
  | [] => (count, cur, [])
  | temp :: st' =>
      if decide (act temp = act cur) then
        if decide (act_row cur = act_row temp /\ act_col cur = act_col temp + 1)
        then batch_insert temp (S count) st'
        else (count, cur, st)
      else (count, cur, st)
  end.

(** [Action get(int& row, int& col, int& count, std::string& text)].
    An empty stack returns [ERROR] and leaves the parameters alone;
    otherwise [text] is reset to [""] and [count] to 1 before the branch on
    the popped record's action.  In the [INSERT] branch the column is
    [cur->col - 1] for the earliest record of the run; the editor only
    submits [INSERT] records with a column of at least 1
    ([EditorUndo.insert_records_col_pos]), so the truncated subtraction of
    [nat] agrees with the [int] one. *)
Definition get (st : stack) (o : params) : action * params * stack :=
  match st with
  | [] => (ERROR, o, [])
  | cur :: st' =>
      match act cur with
      | DELETE =>
          let '(txt, rest) := batch_delete cur [act_ch cur] 0 st' in
          (INSERT, Params (act_row cur) (act_col cur) 1 txt, rest)
      | INSERT =>
          let '(cnt, last, rest) := batch_insert cur 1 st' in
          (DELETE, Params (act_row cur) (act_col last - 1) cnt [], rest)
      | SPLIT => (JOIN, Params (act_row cur) (act_col cur) 1 [], st')
      | JOIN => (SPLIT, Params (act_row cur) (act_col cur) 1 [], st')
      | ERROR => (ERROR, Params (p_row o) (p_col o) 1 [], st')
      end
  end.

End StudentUndo.

(** ** Meaning of records and of coalesced actions *)

(** The edit a record describes, as the editor performs it: an [INSERT]
    at column [c] put its character at [c - 1]; a [DELETE] at [c] removed
    the character at [c]; a [SPLIT] split the row at [c]; a [JOIN] glued
    the next row onto row [r], which had length [c].  [None] when the
    record cannot describe an edit of [L]. *)
Definition redo (r : actdata) (L : buffer) : option buffer :=
  match act r with
  | INSERT =>
      let! l := L !! act_row r in
      if decide (1 <= act_col r <= S (length l))
      then Some (<[act_row r := ins_at (act_col r - 1) (act_ch r) l]> L)
      else None
  | DELETE =>
      let! l := L !! act_row r in
      if decide (l !! act_col r = Some (act_ch r))
      then Some (<[act_row r := del_range (act_col r) 1 l]> L)
      else None
  | SPLIT => buf_split (act_row r) (act_col r) L
  | JOIN =>
      let! l := L !! act_row r in
      if decide (act_col r = length l)
      then buf_join (act_row r) (act_col r) L
      else None
  | ERROR => None
  end.

(** Replay a stack from the bottom: the buffer the records lead to from
    [L0]. *)
Fixpoint replay (st : stack) (L0 : buffer) : option buffer :=
  match st with
  | [] => Some L0
  | r :: st' => let! L := replay st' L0 in redo r L
  end.

(** The change a coalesced action makes to the buffer when the editor
    replays it ([StudentTextEditor::undo]): [INSERT] inserts [text] at
    [col] of [row], [DELETE] erases [count] characters there, [SPLIT]
    splits [row] at [col] and [JOIN] inserts the next row at [col] of
    [row].  [None] when [std::string] would throw or the row is absent. *)
Definition out_effect (a : action) (o : params) (L : buffer) : option buffer :=
  match a with
  | INSERT =>
      let! l := L !! p_row o in
      let! l' := str_insert (p_col o) l (p_text o) in
      Some (<[p_row o := l']> L)
  | DELETE =>
      let! l := L !! p_row o in
      let! l' := str_erase (p_col o) (p_count o) l in
      Some (<[p_row o := l']> L)
  | SPLIT => buf_split (p_row o) (p_col o) L
  | JOIN => buf_join (p_row o) (p_col o) L
  | ERROR => Some L
  end.

(** ** Replay *)

Lemma replay_cons_Some r st L0 L :
  replay (r :: st) L0 = Some L ->
  exists Lm, replay st L0 = Some Lm /\ redo r Lm = Some L.
Proof. simpl. destruct (replay st L0); [eauto | done]. Qed.

Lemma replay_app_Some p s L0 L :
  replay (p ++ s) L0 = Some L ->
  exists Lm, replay s L0 = Some Lm /\ replay p Lm = Some L.
Proof.
  revert L. induction p as [|r p IH]; simpl; intros L H; [eauto|].
  destruct (replay (p ++ s) L0) as [L1|] eqn:E; [|done].
  destruct (IH L1 eq_refl) as (Lm & H1 & H2). exists Lm. rewrite H2. auto.
Qed.

Lemma replay_app p s L0 Lm :
  replay s L0 = Some Lm -> replay (p ++ s) L0 = replay p Lm.
Proof. intros H. induction p as [|r p IH]; simpl; [done|]. by rewrite IH. Qed.

(** ** Coalescing undoes the popped records *)

(** One more typed character at the left end of a run: deleting one more
    character undoes it. *)
Lemma undo_insert_step row a k ch t Lt Lc Lnow :
  redo (ActData INSERT row (S a) ch) Lt = Some Lc ->
  out_effect DELETE (Params row (S a) k t) Lnow = Some Lc ->
  out_effect DELETE (Params row a (S k) t) Lnow = Some Lt.
Proof.
  unfold redo, out_effect; simpl. rewrite Nat.sub_0_r.
  destruct (Lt !! row) as [lt|] eqn:Ht; [|done]. case_decide as Hc; [|done].
  destruct (Lnow !! row) as [ln|] eqn:Hn; [|done].
  destruct (str_erase (S a) k ln) as [lc|] eqn:He; [|done].
  intros E1 E2. inv_opt. apply str_erase_Some in He as [Hle ->].
  rewrite str_erase_ok by lia. f_equal.
  assert (Hrow : row < length Lnow) by (eapply lookup_lt_Some; eauto).
  symmetry in E2. pose proof (insert_row_inj _ _ _ _ _ _ E2 Ht Hrow) as Hl.
  rewrite (insert_row_cancel _ _ _ _ _ _ E2 Ht). f_equal.
  rewrite <- (del_range_ins_at a ch lt), Hl by lia.
  symmetry. apply del_range_merge. lia.
Qed.

(** One more deleted character of a run, at offset [j] of the text
    reconstructed so far: inserting it there undoes it. *)
Lemma undo_delete_step row p0 j cnt ch txt Lt Lc Lnow :
  j <= length txt ->
  redo (ActData DELETE row (p0 + j) ch) Lt = Some Lc ->
  out_effect INSERT (Params row p0 cnt txt) Lnow = Some Lc ->
  out_effect INSERT (Params row p0 cnt (ins_at j ch txt)) Lnow = Some Lt.
Proof.
  intros Hj. unfold redo, out_effect; simpl.
  destruct (Lt !! row) as [lt|] eqn:Ht; [|done]. case_decide as Hc; [|done].
  destruct (Lnow !! row) as [ln|] eqn:Hn; [|done].
  destruct (str_insert p0 ln txt) as [lc|] eqn:He; [|done].
  intros E1 E2. inv_opt. apply str_insert_Some in He as [Hle ->].
  rewrite str_insert_ok by lia. f_equal.
  assert (Hrow : row < length Lnow) by (eapply lookup_lt_Some; eauto).
  symmetry in E2. pose proof (insert_row_inj _ _ _ _ _ _ E2 Ht Hrow) as Hl.
  rewrite (insert_row_cancel _ _ _ _ _ _ E2 Ht). f_equal.
  rewrite <- (ins_at_del_range (p0 + j) ch lt Hc), Hl.
  symmetry. by apply ins_at_ins_all.
Qed.

Import StudentUndo.

(** Loop invariant of the [DELETE] branch: the records the loop pops,
    undone after the text reconstructed so far, are undone by inserting
    the final text.  [lastIns] indexes the character of the current
    record, whose column is [p0 + lastIns]. *)
Lemma batch_delete_sound cur txt i st txt' rest row p0 cnt :
  act cur = DELETE -> act_row cur = row -> act_col cur = p0 + i ->
  i < length txt ->
  batch_delete cur txt i st = (txt', rest) ->
  exists p, st = p ++ rest /\
    forall L Lc Lnow, replay p L = Some Lc ->
      out_effect INSERT (Params row p0 cnt txt) Lnow = Some Lc ->
      out_effect INSERT (Params row p0 cnt txt') Lnow = Some L.
Proof.
  revert cur txt i.
  induction st as [|[ta tr tc tch] st IH]; cbn [batch_delete];
    intros cur txt i Ha Hr Hc Hi E.
  { inv_opt. exists nil. split; [done|]. intros L Lc Lnow HR. simpl in HR. by inv_opt. }
  repeat case_decide;
    try (inv_opt; exists nil; split; [done|]; intros L Lc Lnow HR; simpl in HR; by inv_opt);
    cbn [act act_row act_col act_ch] in *.
  - destruct (IH (ActData ta tr tc tch) (ins_at i tch txt) i ltac:(simpl; congruence)
      ltac:(simpl; lia) ltac:(simpl; lia) ltac:(rewrite length_ins_at; lia) E)
      as (p & -> & Hp).
    exists (ActData ta tr tc tch :: p). split; [done|]. intros L Lc Lnow HR HL.
    apply replay_cons_Some in HR as (Lt & HR & Ht). apply (Hp L Lt Lnow HR).
    eapply undo_delete_step; [lia| |done]. destruct H0 as [Hrow Hcol].
    replace (p0 + i) with tc by lia. replace row with tr by congruence.
    replace DELETE with ta by congruence. exact Ht.
  - destruct (IH (ActData ta tr tc tch) (ins_at (S i) tch txt) (S i) ltac:(simpl; congruence)
      ltac:(simpl; lia) ltac:(simpl; lia) ltac:(rewrite length_ins_at; lia) E)
      as (p & -> & Hp).
    exists (ActData ta tr tc tch :: p). split; [done|]. intros L Lc Lnow HR HL.
    apply replay_cons_Some in HR as (Lt & HR & Ht). apply (Hp L Lt Lnow HR).
    eapply undo_delete_step; [lia| |done]. destruct H0 as [Hrow Hcol].
    replace (p0 + S i) with tc by lia. replace row with tr by congruence.
    replace DELETE with ta by congruence. exact Ht.
Qed.

Lemma redo_insert_col0 r ch L : redo (ActData INSERT r 0 ch) L = None.
Proof. unfold redo; simpl. by destruct (L !! r). Qed.

(** Loop invariant of the [INSERT] branch: deleting [count] characters
    left of the current record's column undoes the records popped so far;
    at the end of the loop the left end is the earliest record's column. *)
Lemma batch_insert_sound cur k st k' last rest row t :
  act cur = INSERT -> act_row cur = row ->
  batch_insert cur k st = (k', last, rest) ->
  exists p, st = p ++ rest /\
    forall L Lc Lnow, replay p L = Some Lc ->
      out_effect DELETE (Params row (act_col cur - 1) k t) Lnow = Some Lc ->
      out_effect DELETE (Params row (act_col last - 1) k' t) Lnow = Some L.
Proof.
  revert cur k.
  induction st as [|[ta tr tc tch] st IH]; cbn [batch_insert]; intros cur k Ha Hr E.
  { inv_opt. exists nil. split; [done|]. intros L Lc Lnow HR. simpl in HR. by inv_opt. }
  repeat case_decide;
    try (inv_opt; exists nil; split; [done|]; intros L Lc Lnow HR; simpl in HR; by inv_opt);
    cbn [act act_row act_col act_ch] in *.
  destruct H0 as [Hrow Hcol].
  destruct (IH (ActData ta tr tc tch) (S k) ltac:(simpl; congruence)
    ltac:(simpl; congruence) E) as (p & -> & Hp).
  exists (ActData ta tr tc tch :: p). split; [done|]. intros L Lc Lnow HR HL.
  apply replay_cons_Some in HR as (Lt & HR & Ht). apply (Hp L Lt Lnow HR).
  replace ta with INSERT in Ht by congruence. replace tr with row in Ht by congruence.
  destruct tc as [|a]; [rewrite redo_insert_col0 in Ht; discriminate|]. simpl.
  rewrite Nat.sub_0_r. eapply undo_insert_step; [exact Ht|].
  replace (S a) with (act_col cur - 1) by lia. exact HL.
Qed.

(** The top record alone is undone by the initial action of its branch. *)
Lemma redo_delete_undone row c ch L L' :
  redo (ActData DELETE row c ch) L = Some L' ->
  out_effect INSERT (Params row c 1 [ch]) L' = Some L.
Proof.
  intros H. apply (undo_delete_step row c 0 1 ch [] L L' L'); [simpl; lia| |].
  - by rewrite Nat.add_0_r.
  - revert H. unfold redo, out_effect; simpl.
    destruct (L !! row) as [l|] eqn:Hl; [|done]. case_decide as Hc; [|done].
    intros. inv_opt. rewrite list_lookup_insert_eq by (eapply lookup_lt_Some; eauto).
    apply lookup_lt_Some in Hc.
    rewrite str_insert_ok by (rewrite length_del_range; lia).
    by rewrite ins_all_nil_id, list_insert_insert_eq.
Qed.

Lemma redo_insert_undone row c ch t L L' :
  redo (ActData INSERT row c ch) L = Some L' ->
  out_effect DELETE (Params row (c - 1) 1 t) L' = Some L.
Proof.
  destruct c as [|a]; [by rewrite redo_insert_col0|]. intros H.
  simpl. rewrite Nat.sub_0_r.
  apply (undo_insert_step row a 0 ch t L L' L'); [done|]. revert H.
  unfold redo, out_effect; simpl. rewrite Nat.sub_0_r.
  destruct (L !! row) as [l|] eqn:Hl; [|done]. case_decide as Hc; [|done].
  intros. inv_opt. rewrite list_lookup_insert_eq by (eapply lookup_lt_Some; eauto).
  rewrite str_erase_ok by (rewrite length_ins_at; lia).
  by rewrite del_range_0, list_insert_insert_eq.
Qed.

Lemma redo_split_undone row c ch t L L' :
  redo (ActData SPLIT row c ch) L = Some L' ->
  out_effect JOIN (Params row c 1 t) L' = Some L.
Proof. apply buf_join_split. Qed.

Lemma redo_join_undone row c ch t L L' :
  redo (ActData JOIN row c ch) L = Some L' ->
  out_effect SPLIT (Params row c 1 t) L' = Some L.
Proof.
  unfold redo; simpl. destruct (L !! row) as [l|] eqn:Hl; [|done].
  case_decide; [subst c|done]. by apply buf_split_join.
Qed.

(** ** Soundness of [get] *)

(** [get] pops a non-empty group of records off the top of the stack, and
    the action it returns, replayed by the editor, undoes exactly that
    group: from any buffer the popped records lead from [L] to [L'], the
    action leads back from [L'] to [L].  This is the equivalence of the
    coalesced inverse with undoing the records one by one. *)
Theorem get_sound st o a o' st' :
  get st o = (a, o', st') -> a <> ERROR ->
  exists p, p <> [] /\ st = p ++ st' /\
    forall L L', replay p L = Some L' -> out_effect a o' L' = Some L.
Proof.
  destruct st as [|[ca cr cc cch] st]; simpl; intros E Ha; [inv_opt; congruence|].
  destruct ca; cbn [act act_row act_col act_ch] in E.
  - inv_opt. congruence.
  - destruct (batch_insert (ActData INSERT cr cc cch) 1 st) as [[cnt last] rest] eqn:B.
    inv_opt. destruct (batch_insert_sound (ActData INSERT cr cc cch) 1 st _ _ _ cr []
      eq_refl eq_refl B)
      as (p & -> & Hp).
    exists (ActData INSERT cr cc cch :: p). do 2 (split; [done|]).
    intros L L' HR. apply replay_cons_Some in HR as (Lc & HR & Hc).
    eapply Hp; [exact HR|]. by eapply redo_insert_undone.
  - inv_opt. exists [ActData SPLIT cr cc cch]. do 2 (split; [done|]).
    intros L L' HR. apply replay_cons_Some in HR as (Lc & HR & Hc). simpl in HR.
    inv_opt. by eapply redo_split_undone.
  - destruct (batch_delete (ActData DELETE cr cc cch) [cch] 0 st) as [txt rest] eqn:B.
    inv_opt. destruct (batch_delete_sound (ActData DELETE cr cc cch) [cch] 0 st _ _ cr cc 1
      eq_refl eq_refl
      ltac:(simpl; lia) ltac:(simpl; lia) B) as (p & -> & Hp).
    exists (ActData DELETE cr cc cch :: p). do 2 (split; [done|]).
    intros L L' HR. apply replay_cons_Some in HR as (Lc & HR & Hc).
    eapply Hp; [exact HR|]. by apply redo_delete_undone.
  - inv_opt. exists [ActData JOIN cr cc cch]. do 2 (split; [done|]).
    intros L L' HR. apply replay_cons_Some in HR as (Lc & HR & Hc). simpl in HR.
    inv_opt. by eapply redo_join_undone.
Qed.

(** C2. The coalesced action takes the buffer at the top of a trace back to
    the buffer at the top of what remains, and [get] makes progress. *)
Theorem get_rewinds st L0 L o a o' st' :
  replay st L0 = Some L -> get st o = (a, o', st') -> a <> ERROR ->
  exists Lm, replay st' L0 = Some Lm /\ out_effect a o' L = Some Lm /\
    length st' < length st.
Proof.
  intros HR G Ha. destruct (get_sound st o a o' st' G Ha) as (p & Hp & -> & Hinv).
  apply replay_app_Some in HR as (Lm & HR & Hp').
  exists Lm. split; [done|]. split; [by apply Hinv|].
  rewrite length_app. destruct p; [done|]. simpl. lia.
Qed.

Definition cat_backspaced : stack :=
  [ActData DELETE 0 0 "c"; ActData DELETE 0 1 "a"; ActData DELETE 0 2 "t"].

Lemma get_rewinds_witness :
  replay cat_backspaced [["c"; "a"; "t"]] = Some [[]] /\
  get cat_backspaced (Params 0 0 0 []) = (INSERT, Params 0 0 1 ["c"; "a"; "t"], []) /\
  exists Lm, replay [] [["c"; "a"; "t"]] = Some Lm /\
    out_effect INSERT (Params 0 0 1 ["c"; "a"; "t"]) [[]] = Some Lm /\
    length (@nil actdata) < length cat_backspaced.
Proof.
  split; [reflexivity|]. split; [reflexivity|].
  apply (get_rewinds cat_backspaced _ _ (Params 0 0 0 [])); [reflexivity|reflexivity|discriminate].
Defined.

(** ** Runs of edits coalesce into one action

    The records a run of typing leaves on the stack: typing from column
    [c] of row [r] submits [INSERT]s at columns [c + 1], [c + 2], ...;
    [ins_run r c xs] lists them top first, [xs] being the typed characters
    last typed first. *)
Fixpoint ins_run (r c : nat) (xs : line) : stack :=
  match xs with
  | [] => []
  | x :: xs' => ActData INSERT r (c + S (length xs')) x :: ins_run r c xs'
  end.

(** Backspacing over the characters [s] that sit at columns [p], [p + 1],
    ... submits [DELETE]s at the decreasing columns; top first, the run
    starts at column [p]. *)
Fixpoint bs_run (r p : nat) (s : line) : stack :=
  match s with
  | [] => []
  | y :: s' => ActData DELETE r p y :: bs_run r (S p) s' end.

(** Forward-deleting at column [p] submits [DELETE]s all at column [p];
    [xs] is the deleted characters, last deleted first. *)
Definition fd_run (r p : nat) (xs : line) : stack :=
  map (fun y => ActData DELETE r p y) xs.

(** The top of [st] would continue an insertion run whose earliest record
    is at column [c + 1], or a deletion run whose earliest record is at
    column [q]. *)
Definition extends_ins (r c : nat) (st : stack) : Prop :=
  match st with
  | top :: _ => act top = INSERT /\ act_row top = r /\ act_col top = c
  | [] => False
  end.

Definition extends_del (r q : nat) (st : stack) : Prop :=
  match st with
  | top :: _ => act top = DELETE /\ act_row top = r /\
                (act_col top = q \/ act_col top = S q)
  | [] => False
  end.

Lemma batch_insert_run r c xs x k rest :
  exists y, batch_insert (ActData INSERT r (c + S (length xs)) x) k (ins_run r c xs ++ rest)
          = batch_insert (ActData INSERT r (S c) y) (k + length xs) rest.
Proof.
  revert x k. induction xs as [|z zs IH]; intros x k; simpl.
  - exists x. replace (c + 1) with (S c) by lia. by rewrite Nat.add_0_r.
  - repeat case_decide; simpl in *; try (exfalso; intuition lia).
    destruct (IH z (S k)) as [y Hy]. exists y. rewrite Hy. f_equal. lia.
Qed.

Lemma batch_insert_stop r c y k rest :
  ~ extends_ins r c rest ->
  batch_insert (ActData INSERT r (S c) y) k rest = (k, ActData INSERT r (S c) y, rest).
Proof.
  destruct rest as [|[ta tr tc tch] rest]; simpl; intros H; [done|].
  repeat case_decide; try done. exfalso. apply H. simpl in *. split_and!; lia || congruence.
Qed.

Lemma batch_delete_bs_run r q y txt i s rest :
  S i = length txt ->
  exists y', batch_delete (ActData DELETE r q y) txt i (bs_run r (S q) s ++ rest)
           = batch_delete (ActData DELETE r (q + length s) y') (txt ++ s) (i + length s) rest.
Proof.
  revert q y txt i. induction s as [|z s IH]; intros q y txt i Hi; simpl.
  - exists y. by rewrite Nat.add_0_r, app_nil_r, Nat.add_0_r.
  - repeat case_decide; simpl in *; try (exfalso; intuition lia).
    rewrite Hi, ins_at_end.
    destruct (IH (S q) z (txt ++ [z]) (S i)) as [y' Hy]; [rewrite length_app; simpl; lia|].
    exists y'. rewrite Hi in Hy. rewrite Hy, <- app_assoc. simpl. f_equal; [f_equal|]; lia.
Qed.

Lemma batch_delete_fd_run r p y txt xs rest :
  exists y', batch_delete (ActData DELETE r p y) txt 0 (fd_run r p xs ++ rest)
           = batch_delete (ActData DELETE r p y') (rev xs ++ txt) 0 rest.
Proof.
  unfold fd_run. revert y txt.
  induction xs as [|z xs IH]; intros y txt; simpl; [by exists y|].
  repeat case_decide; simpl in *; try (exfalso; intuition lia).
  replace (ins_at 0 z txt) with (z :: txt) by done.
  destruct (IH z (z :: txt)) as [y' ->].
  exists y'. by rewrite <- app_assoc.
Qed.

Lemma batch_delete_stop r q y txt i rest :
  ~ extends_del r q rest -> batch_delete (ActData DELETE r q y) txt i rest = (txt, rest).
Proof.
  destruct rest as [|[ta tr tc tch] rest]; simpl; intros H; [done|].
  repeat case_decide; try done; exfalso; apply H; simpl in *; naive_solver.
Qed.

(** C4. A run of typing coalesces into one deletion of all its characters,
    from the column where typing started (spec: "cat" typed, one undo). *)
Theorem get_typing_run r c x xs rest o :
  ~ extends_ins r c rest ->
  get (ins_run r c (x :: xs) ++ rest) o = (DELETE, Params r c (S (length xs)) [], rest).
Proof.
  intros H. simpl. destruct (batch_insert_run r c xs x 1 rest) as [y ->].
  rewrite batch_insert_stop by done. simpl. by rewrite Nat.sub_0_r.
Qed.

Lemma get_typing_run_witness :
  ~ extends_ins 0 0 [] /\
  get (ins_run 0 0 ["t"; "a"; "c"] ++ []) (Params 0 0 0 []) = (DELETE, Params 0 0 3 [], []).
Proof. split; [simpl; tauto|]. apply (get_typing_run 0 0 "t" ["a"; "c"]). simpl; tauto. Defined.

(** C5. A run of backspaces coalesces into one insertion of the deleted text,
    in its original order, at the column where the run ended. *)
Theorem get_backspace_run r p y s rest o :
  ~ extends_del r (p + length s) rest ->
  get (bs_run r p (y :: s) ++ rest) o = (INSERT, Params r p 1 (y :: s), rest).
Proof.
  intros H. simpl. destruct (batch_delete_bs_run r p y [y] 0 s rest) as [y' ->]; [done|].
  by rewrite batch_delete_stop.
Qed.

Lemma get_backspace_run_witness :
  ~ extends_del 0 (0 + length ["a"; "t"]) [] /\
  get (bs_run 0 0 ["c"; "a"; "t"] ++ []) (Params 0 0 0 []) = (INSERT, Params 0 0 1 ["c"; "a"; "t"], []).
Proof. split; [simpl; tauto|]. apply (get_backspace_run 0 0 "c" ["a"; "t"]). simpl; tauto. Defined.

(** C6. A run of forward deletes at one column coalesces into one insertion
    of the deleted text, in its original order, at that column. *)
Theorem get_forward_run r p s y rest o :
  ~ extends_del r p rest ->
  get (fd_run r p (rev (s ++ [y])) ++ rest) o = (INSERT, Params r p 1 (s ++ [y]), rest).
Proof.
  intros H. rewrite rev_app_distr. simpl.
  destruct (batch_delete_fd_run r p y [y] (rev s) rest) as [y' ->].
  rewrite batch_delete_stop by done. by rewrite rev_involutive.
Qed.

Lemma get_forward_run_witness :
  ~ extends_del 0 1 [] /\
  get (fd_run 0 1 (rev (["a"; "b"] ++ ["c"])) ++ []) (Params 0 0 0 []) =
    (INSERT, Params 0 1 1 (["a"; "b"] ++ ["c"]), []).
Proof. split; [simpl; tauto|]. apply get_forward_run. simpl; tauto. Defined.

Lemma get_empty st o : st = [] -> get st o = (ERROR, o, st).
Proof. by intros ->. Qed.

(** [get] answers [ERROR] on a non-empty stack only by popping a record
    whose action is [ERROR] (the fall-through [return] of the source). *)
Lemma get_error_pop st o o' st' :
  get st o = (ERROR, o', st') -> st <> [] ->
  exists r, st = r :: st' /\ act r = ERROR.
Proof.
  destruct st as [|[ca cr cc cch] st]; [done|]. simpl. intros E _.
  destruct ca; cbn [act] in E.
  - inv_opt. eauto.
  - by destruct (batch_insert _ _ _) as [[??]?].
  - done.
  - by destruct (batch_delete _ _ _ _) as [??].
  - done.
Qed.

(** ** The [Undo] interface (Undo.h)

    The editor holds an [Undo*] and calls only these three members. *)
Class UndoLog (U : Type) := {
  undo_submit : action -> nat -> nat -> ascii -> U -> U;
  undo_get : U -> params -> action * params * U;
  undo_clear : U -> U;
}.

(** What an undo object promises the editor, stated on the stack of
    records it holds ([undo_records], top first): [submit] pushes,
    [clear] empties, [get] on an empty log answers [ERROR] and changes
    nothing, and any other answer pops a non-empty group and undoes it. *)
Class UndoLogSpec (U : Type) `{!UndoLog U} := {
  undo_records : U -> stack;
  undo_records_submit a r c ch u :
    undo_records (undo_submit a r c ch u) = ActData a r c ch :: undo_records u;
  undo_records_clear u : undo_records (undo_clear u) = [];
  undo_get_empty u o : undo_records u = [] -> undo_get u o = (ERROR, o, u);
  undo_get_error u o o' u' :
    undo_get u o = (ERROR, o', u') -> undo_records u <> [] ->
    exists r, undo_records u = r :: undo_records u' /\ act r = ERROR;
  undo_get_sound u o a o' u' :
    undo_get u o = (a, o', u') -> a <> ERROR ->
    exists p, p <> [] /\ undo_records u = p ++ undo_records u' /\
      forall L L', replay p L = Some L' -> out_effect a o' L' = Some L;
}.

(** [createUndo()] returns a [StudentUndo]. *)
#[export] Instance student_undo : UndoLog stack := {|
  undo_submit := StudentUndo.submit;
  undo_get := StudentUndo.get;
  undo_clear := StudentUndo.clear;
|}.

#[export] Instance student_undo_spec : UndoLogSpec stack := {|
  undo_records st := st;
  undo_records_submit _ _ _ _ _ := eq_refl;
  undo_records_clear _ := eq_refl;
  undo_get_empty := get_empty;
  undo_get_error := get_error_pop;
  undo_get_sound := get_sound;
|}.
