(* ===== verification/Editor.v ===== *)
(** * Editor: [StudentTextEditor]

    The editor of src/Wurd/StudentTextEditor.cpp, written against the
    [UndoLog] interface ([Undo*] in the source).  Its state is the record
    [editor]: the lines ([std::list<std::string> m_lines]), the cursor
    ([m_r], [m_c]), the position of the list iterator [m_it] (an index into
    the lines) and the undo object.  Each member function is one
    definition.  [undo] returns an [option]: [None] is a [std::string]
    exception or the dereference of [m_lines.end()], which the proofs in
    EditorUndo exclude for reachable states.  The other operations read
    [*m_it] with [cur_line] and are total; under the invariant [wf]
    (iterator at the cursor row, row and column in range) they perform
    exactly the [std::string] calls of the source.

    The theorems of this file are about the editor alone: the invariant is
    preserved by every operation, [move] right then left returns to the
    same place, and [getLines] and [load]/[save] behave as specified.  What
    the edits submit to the log and what [undo] does with it is proved in
    EditorUndo. *)

From S2P Require Import Prelude Text Undo.
From Stdlib Require Import ZArith.

#[local] Open Scope char_scope.

(** [TextEditor::Dir] *)
Inductive dir := UP | DOWN | LEFT | RIGHT | HOME | END.

Section Editor.
Context {U : Type} `{!UndoLog U}.

Record editor := Editor {
  m_lines : buffer;
  m_r : nat;
  m_c : nat;
  m_it : nat;
  m_undo : U;
}.

(** [*m_it] *)
Definition cur_line (e : editor) : line := default [] (m_lines e !! m_it e).

(** [StudentTextEditor(Undo* undo)] *)
Definition create (u : U) : editor := Editor [[]] 0 0 0 u.

(** [void reset()] *)
Definition reset (e : editor) : editor :=
  Editor [[]] 0 0 0 (undo_clear (m_undo e)).

(** [void move(Dir dir)]: [UP]/[DOWN] clamp the column to the new line;
    [LEFT] at column 0 and [RIGHT] at the end of a line wrap to the
    neighbouring line. *)
Definition move (d : dir) (e : editor) : editor :=
  let '(Editor ls r c it u) := e in
  match d with
  | UP =>
      if decide (r <> 0) then
        let l := default [] (ls !! (it - 1)) in
        Editor ls (r - 1) (if decide (length l < c) then length l else c) (it - 1) u
      else e
  | DOWN =>
      if decide (r <> length ls - 1) then
        let l := default [] (ls !! S it) in
        Editor ls (S r) (if decide (length l < c) then length l else c) (S it) u
      else e
  | LEFT =>
      if decide (c = 0 /\ r <> 0) then
        Editor ls (r - 1) (length (default [] (ls !! (it - 1)))) (it - 1) u
      else if decide (c <> 0) then Editor ls r (c - 1) it u
      else e
  | RIGHT =>
      if decide (c = length (cur_line e) /\ r <> length ls - 1) then
        Editor ls (S r) 0 (S it) u
      else if decide (c <> length (cur_line e)) then Editor ls r (S c) it u
      else e
  | HOME => Editor ls r 0 it u
  | END => Editor ls r (length (cur_line e)) it u
  end.

(** [void del()]: at the end of a line that is not the last, the next line
    is appended ([m_it = m_lines.erase(m_it)] then [*m_it = str + *m_it])
    and a [JOIN] at the cursor is submitted; elsewhere in a line the
    character under the cursor is erased and a [DELETE] is submitted. *)
Definition del (e : editor) : editor :=
  let '(Editor ls r c it u) := e in
  let l := cur_line e in
  if decide (c = length l /\ r <> length ls - 1) then
    let rest := delete it ls in
    let str := l ++ default [] (rest !! it) in
    Editor (<[it := str]> rest) r c it (undo_submit JOIN r c "000" u)
  else if decide (c <> length l) then
    let toDel := str_at l c in
    Editor (<[it := del_range c 1 l]> ls) r c it (undo_submit DELETE r c toDel u)
  else e.

(** [void backspace()]: at column 0 of a line that is not the first, the
    line is appended to the previous one, the cursor moves to the join
    point and a [JOIN] there is submitted; elsewhere the character before
    the cursor is erased and a [DELETE] at the new column is submitted. *)
Definition backspace (e : editor) : editor :=
  let '(Editor ls r c it u) := e in
  let l := cur_line e in
  if decide (c = 0 /\ r <> 0) then
    let rest := delete it ls in
    let prev := default [] (rest !! (it - 1)) in
    Editor (<[it - 1 := prev ++ l]> rest) (r - 1) (length prev) (it - 1)
      (undo_submit JOIN (r - 1) (length prev) "000" u)
  else if decide (c <> 0) then
    let toDel := str_at l (c - 1) in
    Editor (<[it := del_range (c - 1) 1 l]> ls) r (c - 1) it
      (undo_submit DELETE r (c - 1) toDel u)
  else e.

(** The non-tab branch of [void insert(char ch)]: insert at the cursor,
    advance the column, submit an [INSERT] at the new column. *)
Definition insert_char (ch : ascii) (e : editor) : editor :=
  let '(Editor ls r c it u) := e in
  Editor (<[it := ins_at c ch (cur_line e)]> ls) r (S c) it
    (undo_submit INSERT r (S c) ch u).

(** [void insert(char ch)]: a tab is four calls [insert(' ')], each of
    which takes the non-tab branch. *)
Definition insert (ch : ascii) (e : editor) : editor :=
  if decide (ch = "009"%char) then Nat.iter 4 (insert_char " "%char) e
  else insert_char ch e.

(** [void enter()]: submit a [SPLIT] at the cursor, cut the line at the
    cursor ([substr], [resize]) and insert the tail after it. *)
Definition enter (e : editor) : editor :=
  let '(Editor ls r c it u) := e in
  let u' := undo_submit SPLIT r c "000" u in
  let l := cur_line e in
  let newLine := drop c l in
  let ls' := <[it := str_resize c l]> ls in
  Editor (ins_at (S it) newLine ls') (S r) 0 (S it) u'.

(** [void getPos(int& row, int& col) const] *)
Definition getPos (e : editor) : nat * nat := (m_r e, m_c e).

(** [int getLines(int startRow, int numRows, std::vector<std::string>&
    lines) const]: [-1] and [lines] untouched on bad arguments, otherwise
    [lines] is replaced by up to [numRows] lines from [startRow] and its
    size is returned. *)
Definition getLines (startRow numRows : Z) (lines : list line) (e : editor)
    : Z * list line :=
  if decide (startRow < 0 \/ numRows < 0 \/ Z.of_nat (length (m_lines e)) < startRow)%Z
  then ((-1)%Z, lines)
  else
    let out := take (Z.to_nat numRows) (drop (Z.to_nat startRow) (m_lines e)) in
    (Z.of_nat (length out), out).

(** [void undo()]: ask the undo object for an action, with [newRow = 0]
    and [m_c] itself as the column out-parameter; unless the answer is
    [ERROR], walk the iterator from [m_r] to [newRow] and replay the
    action without submitting anything. *)
Definition undo (e : editor) : option editor :=
  let '(Editor ls r c it u) := e in
  let '(a, o, u') := undo_get u (Params 0 c 0 []) in
  let newRow := p_row o in
  let col := p_col o in
  if decide (a = ERROR) then Some (Editor ls r col it u')
  else
    let it' := if decide (r < newRow) then it + (newRow - r) else it - (r - newRow) in
    match a with
    | INSERT =>
        let! l := ls !! it' in
        let! l' := str_insert col l (p_text o) in
        Some (Editor (<[it' := l']> ls) newRow col it' u')
    | DELETE =>
        let! l := ls !! it' in
        let! l' := str_erase col (p_count o) l in
        Some (Editor (<[it' := l']> ls) newRow col it' u')
    | SPLIT =>
        let! l := ls !! it' in
        let! newLine := str_substr col l in
        let ls' := <[it' := str_resize col l]> ls in
        Some (Editor (ins_at (S it') newLine ls') (S newRow) 0 (S it') u')
    | JOIN =>
        let! joinLine := ls !! S it' in
        let rest := delete (S it') ls in
        let! l := rest !! it' in
        let! l' := str_insert col l joinLine in
        Some (Editor (<[it' := l']> rest) newRow col it' u')
    | ERROR => Some (Editor ls newRow col it' u')
    end.

End Editor.

Arguments editor U : clear implicits.

(** ** Files *)

(** [if (str.size() != 0 && str[str.size() - 1] == '\r') str.pop_back();] *)
Definition strip_cr (l : line) : line :=
  if decide (last l = Some "013"%char) then removelast l else l.

(** The loop of [load]: the first line read overwrites the empty line left
    by [reset()] (at [m_it], the first row), the others are appended. *)
Fixpoint load_loop (first : bool) (ls : list line) (buf : buffer) : buffer :=
  match ls with
  | [] => buf
  | str :: ls' =>
      if first then load_loop false ls' (<[0 := strip_cr str]> buf)
      else load_loop false ls' (buf ++ [strip_cr str])
  end.

Section Files.
Context {U : Type} `{!UndoLog U}.

(** [bool load(std::string file)]: [file] is the content of the file, or
    [None] when it cannot be opened. *)
Definition load (file : option (list ascii)) (e : editor U) : bool * editor U :=
  match file with
  | None => (false, e)
  | Some contents =>
      let e0 := reset e in
      (true, Editor (load_loop true (getlines contents) (m_lines e0))
               (m_r e0) (m_c e0) (m_it e0) (m_undo e0))
  end.

(** What [save] writes: every line followed by ['\n']. *)
Definition save_contents (e : editor U) : list ascii :=
  concat (map (fun l => l ++ ["010"%char]) (m_lines e)).

(** [bool save(std::string file)]: [writable] says whether the file could
    be opened for writing. *)
Definition save (writable : bool) (e : editor U) : bool * option (list ascii) :=
  if writable then (true, Some (save_contents e)) else (false, None).

End Files.

(** ** The representation invariant *)

Section Invariant.
Context {U : Type} `{!UndoLog U}.
Implicit Types e : editor U.

(** [StudentTextEditor]'s invariant: the iterator [m_it] points at row
    [m_r], that row exists, and the column is at most its length (the
    buffer is therefore never empty). *)
Definition wf e : Prop :=
  m_it e = m_r e /\ m_r e < length (m_lines e) /\ m_c e <= length (cur_line e).

Lemma default_lookup_insert (L : buffer) r x :
  r < length L -> default [] (<[r:=x]> L !! r) = x.
Proof. intros H. by rewrite list_lookup_insert_eq. Qed.

Lemma wf_nonempty e : wf e -> m_lines e <> [].
Proof. intros (_ & Hr & _) E. rewrite E in Hr. simpl in Hr. lia. Qed.

Lemma wf_row e : wf e ->
  exists l, m_lines e !! m_r e = Some l /\ cur_line e = l /\ m_c e <= length l.
Proof.
  intros (Hit & Hr & Hc). destruct (lookup_lt_is_Some_2 _ _ Hr) as [l Hl].
  exists l. unfold cur_line in *. rewrite Hit, Hl in *. auto.
Qed.

End Invariant.

(** Open the invariant of an editor given by its fields: the iterator is
    replaced by the row, and the current row is named [l]. *)
Ltac open_wf H :=
  let Hl := fresh "Hl" in let Hc := fresh "Hc" in let Hr := fresh "Hr" in
  let l := fresh "l" in
  pose proof H as (_ & Hr & _);
  destruct (wf_row _ H) as (l & Hl & _ & Hc);
  destruct H as (? & _ & _); simpl in *; subst;
  unfold cur_line in *; simpl in *; try rewrite Hl in *; simpl in *.

Section Preservation.
Context {U : Type} `{!UndoLog U}.
Implicit Types e : editor U.

Theorem move_wf d e : wf e -> wf (move d e).
Proof.
  intros H. destruct e as [ls r c it u]. open_wf H.
  destruct d; cbn -[cur_line]; repeat case_decide; unfold wf, cur_line; simpl;
    rewrite ?Hl; simpl; repeat split; try case_decide; lia.
Qed.

Theorem del_wf e : wf e -> wf (del e).
Proof.
  intros H. destruct e as [ls r c it u]. open_wf H. cbn -[cur_line].
  unfold cur_line; simpl. rewrite ?Hl. simpl. repeat case_decide.
  - rewrite delete_lookup_next.
    destruct (lookup_lt_is_Some_2 ls (S r)) as [n Hn]; [lia|]. rewrite Hn.
    unfold wf, cur_line; simpl.
    rewrite default_lookup_insert by len. repeat split; len.
  - unfold wf, cur_line; simpl. rewrite default_lookup_insert by lia.
    repeat split; len.
  - unfold wf, cur_line; simpl. rewrite Hl. simpl. repeat split; lia.
Qed.

Theorem backspace_wf e : wf e -> wf (backspace e).
Proof.
  intros H. destruct e as [ls r c it u]. open_wf H. cbn -[cur_line].
  unfold cur_line; simpl. rewrite ?Hl. simpl. repeat case_decide.
  - rewrite list_lookup_delete_lt by lia.
    destruct (lookup_lt_is_Some_2 ls (r - 1)) as [p Hp]; [lia|]. rewrite Hp.
    unfold wf, cur_line; simpl.
    rewrite default_lookup_insert by len. repeat split; len.
  - unfold wf, cur_line; simpl. rewrite default_lookup_insert by lia.
    repeat split; len.
  - unfold wf, cur_line; simpl. rewrite Hl. simpl. repeat split; lia.
Qed.

Theorem insert_char_wf ch e : wf e -> wf (insert_char ch e).
Proof.
  intros H. destruct e as [ls r c it u]. open_wf H. cbn -[cur_line].
  unfold cur_line; simpl. rewrite ?Hl. simpl.
  unfold wf, cur_line; simpl. rewrite default_lookup_insert by lia.
  repeat split; len.
Qed.

Theorem insert_wf ch e : wf e -> wf (insert ch e).
Proof.
  intros H. unfold insert. case_decide; [|by apply insert_char_wf].
  simpl. by do 4 apply insert_char_wf.
Qed.

Theorem enter_wf e : wf e -> wf (enter e).
Proof.
  intros H. destruct e as [ls r c it u]. open_wf H. cbn -[cur_line].
  unfold cur_line; simpl. rewrite ?Hl. simpl.
  unfold wf, cur_line; simpl. rewrite lookup_ins_at_here by len. simpl.
  repeat split; len.
Qed.

Theorem reset_wf e : wf (reset e).
Proof. unfold wf, cur_line; simpl. lia. Qed.

Lemma load_loop_nonempty first ls buf :
  buf <> [] -> load_loop first ls buf <> [].
Proof.
  revert first buf. induction ls as [|l ls IH]; intros first buf Hb; simpl; [done|].
  destruct first; apply IH.
  - destruct buf; [done|]. simpl. done.
  - destruct buf; simpl; done.
Qed.

Theorem load_wf contents e : wf (snd (load (Some contents) e)).
Proof.
  unfold wf, cur_line; simpl. split; [done|]. split; [|lia].
  destruct (load_loop true (getlines contents) [[]]) eqn:E; simpl; [|lia].
  by destruct (load_loop_nonempty true (getlines contents) [[]]).
Qed.

(** C13. The invariant holds after construction, [reset] and a successful
    [load], and every operation preserves it. *)
Theorem edits_preserve_wf e d ch (u : U) contents :
  wf (create u) /\ wf (reset e) /\ wf (snd (load (Some contents) e)) /\
  (wf e -> wf (move d e) /\ wf (insert ch e) /\ wf (del e) /\
           wf (backspace e) /\ wf (enter e)).
Proof.
  split_and!; [unfold wf, cur_line; simpl; lia|apply reset_wf|apply load_wf|].
  intros H. split_and!; auto using move_wf, insert_wf, del_wf, backspace_wf, enter_wf.
Qed.

End Preservation.

(** ** Behaviour of the remaining operations *)

Section Behaviour.
Context {U : Type} `{!UndoLog U}.
Implicit Types e : editor U.

(** C17. Spec: [getLines] with valid arguments returns [min numRows (line
    count - startRow)] lines, the rows from [startRow] on, and their
    number (so [startRow = line count] gives no lines, not a failure). *)
Theorem getLines_ok e (startRow numRows : Z) lines :
  (0 <= startRow <= Z.of_nat (length (m_lines e)))%Z -> (0 <= numRows)%Z ->
  let '(n, out) := getLines startRow numRows lines e in
  n = Z.of_nat (length out) /\
  length out = Nat.min (Z.to_nat numRows) (length (m_lines e) - Z.to_nat startRow) /\
  forall i, i < length out -> out !! i = m_lines e !! (Z.to_nat startRow + i).
Proof.
  intros Hs Hn. unfold getLines. rewrite decide_False by lia.
  split; [done|]. split.
  - by rewrite length_take, length_drop.
  - intros i Hi. rewrite length_take in Hi.
    by rewrite lookup_take_lt, lookup_drop by lia.
Qed.

(** C18. Spec: [getLines] fails (returns -1, leaving [lines] untouched) exactly
    when [startRow] or [numRows] is negative or [startRow] is past the
    line count. *)
Theorem getLines_fails e (startRow numRows : Z) lines :
  fst (getLines startRow numRows lines e) = (-1)%Z <->
  (startRow < 0 \/ numRows < 0 \/ Z.of_nat (length (m_lines e)) < startRow)%Z.
Proof. unfold getLines. case_decide; simpl; [tauto|]. split; [lia|tauto]. Qed.

(** C20. Moving right then left (or left then right) returns to the same
    position, except at the end (start) of the buffer. *)
Theorem move_right_left e :
  wf e -> ~ (m_r e = length (m_lines e) - 1 /\ m_c e = length (cur_line e)) ->
  move LEFT (move RIGHT e) = e.
Proof.
  intros H Hn. destruct e as [ls r c it u]. open_wf H.
  repeat case_decide; simpl; repeat case_decide; try lia.
  - rewrite Nat.sub_0_r, Hl. simpl. f_equal. lia.
  - by rewrite Nat.sub_0_r.
Qed.

End Behaviour.

(** ** Files: the round trip *)

Lemma load_loop_appends ls buf :
  load_loop false ls buf = buf ++ map strip_cr ls.
Proof.
  revert buf. induction ls as [|l ls IH]; intros buf; simpl.
  - by rewrite app_nil_r.
  - by rewrite IH, <- app_assoc.
Qed.

Lemma strip_cr_id l : last l <> Some "013" -> strip_cr l = l.
Proof. intros H. unfold strip_cr. by rewrite decide_False. Qed.

Section RoundTrip.
Context {U : Type} `{!UndoLog U}.

(** C19. Spec: saving and loading again reproduces the buffer, as long as no
    line contains a line break or ends with a carriage return (which
    [load] strips). *)
Theorem load_save_roundtrip (e e' : editor U) :
  m_lines e <> [] ->
  Forall (fun l => ~ In "010" l /\ last l <> Some "013") (m_lines e) ->
  snd (load (Some (save_contents e)) e') =
  Editor (m_lines e) 0 0 0 (undo_clear (m_undo e')).
Proof.
  intros Hne Hf. unfold load, save_contents; simpl. f_equal.
  rewrite getlines_save by (eapply Forall_impl; [exact Hf|]; intros x [? ?]; done).
  destruct (m_lines e) as [|l ls]; [done|]. simpl.
  rewrite load_loop_appends. simpl. f_equal.
  - apply strip_cr_id. by apply Forall_inv in Hf as [_ ?].
  - apply Forall_inv_tail in Hf. induction Hf as [|x xs [_ Hx] _ IH]; simpl; [done|].
    by rewrite strip_cr_id, IH.
Qed.

End RoundTrip.

Lemma getLines_ok_witness :
  (0 <= 2 <= Z.of_nat (length (m_lines (Editor [["a"]; ["b"]] 0 0 0 ([] : stack)))))%Z /\
  (0 <= 5)%Z /\
  (let '(n, out) := getLines 2 5 [] (Editor [["a"]; ["b"]] 0 0 0 ([] : stack)) in
   n = Z.of_nat (length out) /\
   length out = Nat.min (Z.to_nat 5) (length (m_lines (Editor [["a"]; ["b"]] 0 0 0 ([] : stack))) - Z.to_nat 2) /\
   forall i, i < length out -> out !! i = m_lines (Editor [["a"]; ["b"]] 0 0 0 ([] : stack)) !! (Z.to_nat 2 + i)).
Proof. split; [simpl; lia|]. split; [lia|]. apply getLines_ok; simpl; lia. Defined.

Lemma move_right_left_witness :
  wf (Editor [["a"]; ["b"]] 0 1 0 ([] : stack)) /\
  ~ (m_r (Editor [["a"]; ["b"]] 0 1 0 ([] : stack)) = length (m_lines (Editor [["a"]; ["b"]] 0 1 0 ([] : stack))) - 1 /\
     m_c (Editor [["a"]; ["b"]] 0 1 0 ([] : stack)) = length (cur_line (Editor [["a"]; ["b"]] 0 1 0 ([] : stack)))) /\
  move LEFT (move RIGHT (Editor [["a"]; ["b"]] 0 1 0 ([] : stack))) = Editor [["a"]; ["b"]] 0 1 0 ([] : stack).
Proof.
  assert (Hw : wf (Editor [["a"]; ["b"]] 0 1 0 ([] : stack))) by (unfold wf, cur_line; simpl; lia).
  assert (Hn : ~ (m_r (Editor [["a"]; ["b"]] 0 1 0 ([] : stack)) =
      length (m_lines (Editor [["a"]; ["b"]] 0 1 0 ([] : stack))) - 1 /\
    m_c (Editor [["a"]; ["b"]] 0 1 0 ([] : stack)) = length (cur_line (Editor [["a"]; ["b"]] 0 1 0 ([] : stack)))))
    by (simpl; lia).
  split_and!; [exact Hw|exact Hn|]. exact (move_right_left _ Hw Hn).
Defined.

Lemma load_save_roundtrip_witness :
  m_lines (Editor [["a"]; []] 1 0 1 ([] : stack)) <> [] /\
  Forall (fun l => ~ In "010" l /\ last l <> Some "013")
    (m_lines (Editor [["a"]; []] 1 0 1 ([] : stack))) /\
  snd (load (Some (save_contents (Editor [["a"]; []] 1 0 1 ([] : stack))))
         (Editor [["z"]] 0 0 0 ([] : stack))) =
  Editor [["a"]; []] 0 0 0 (undo_clear ([] : stack)).
Proof.
  assert (Hf : Forall (fun l => ~ In "010" l /\ last l <> Some "013")
    (m_lines (Editor [["a"]; []] 1 0 1 ([] : stack)))).
  { constructor; [split; simpl; [intros [H|[]]; discriminate|discriminate]|].
    constructor; [split; simpl; [intros []|discriminate]|]. constructor. }
  split_and!; [discriminate|exact Hf|].
  exact (load_save_roundtrip (Editor [["a"]; []] 1 0 1 []) _ ltac:(discriminate) Hf).
Defined.

Lemma edits_preserve_wf_witness :
  wf (create ([] : stack)) /\ wf (reset (Editor [["a"]] 0 1 0 ([] : stack))) /\
  wf (snd (load (Some ["b"]) (Editor [["a"]] 0 1 0 ([] : stack)))) /\
  wf (Editor [["a"]] 0 1 0 ([] : stack)) /\
  wf (move UP (Editor [["a"]] 0 1 0 ([] : stack))) /\
  wf (insert "x" (Editor [["a"]] 0 1 0 ([] : stack))) /\
  wf (del (Editor [["a"]] 0 1 0 ([] : stack))) /\
  wf (backspace (Editor [["a"]] 0 1 0 ([] : stack))) /\
  wf (enter (Editor [["a"]] 0 1 0 ([] : stack))).
Proof.
  assert (Hw : wf (Editor [["a"]] 0 1 0 ([] : stack))) by (unfold wf, cur_line; simpl; lia).
  destruct (edits_preserve_wf (Editor [["a"]] 0 1 0 ([] : stack)) UP "x" [] ["b"])
    as (H1 & H2 & H3 & H4).
  destruct (H4 Hw) as (H5 & H6 & H7 & H8 & H9).
  split_and!; assumption.
Defined.
