(* ===== verification/EditorUndo.v ===== *)
(** * EditorUndo: the editor and its undo log together

    The editor submits one record per primitive edit and replays the
    coalesced actions the log hands back.  This file proves that the two
    halves fit: the records on the log always form a trace from the text
    that was loaded to the current buffer ([consistent]); every edit
    extends the trace by the record it submits ([logged]); [undo] never
    fails on a consistent editor, pops at least one record and moves the
    buffer back to the point of the trace before the popped group
    ([undo_rewinds]); so undoing as many times as there are records
    restores the loaded text ([undo_all_restores]).  These theorems are
    proved against the [UndoLogSpec] interface and hold for any undo
    object that meets it, [StudentUndo] in particular.  A session is a
    list of user commands ([run], [run_all]); the edge cases that change
    nothing and the concrete scenarios of the specification are stated as
    command sequences and evaluated on [StudentUndo]. *)

From S2P Require Import Prelude Text Undo Editor.

#[local] Open Scope char_scope.

Section Logged.
Context {U : Type} `{!UndoLog U} `{!UndoLogSpec U}.
Implicit Types e : editor U.

(** [e'] is reached from [e] by edits that each submitted the record
    describing them (moves submit nothing and leave the text alone). *)
Inductive logged : editor U -> editor U -> Prop :=
  | logged_none e e' :
      m_lines e' = m_lines e ->
      undo_records (m_undo e') = undo_records (m_undo e) ->
      logged e e'
  | logged_rec e e' e'' rec :
      logged e e' ->
      undo_records (m_undo e'') = rec :: undo_records (m_undo e') ->
      redo rec (m_lines e') = Some (m_lines e'') ->
      logged e e''.

(** The log of [e] is a trace from [L0] to the buffer of [e]. *)
Definition consistent (L0 : buffer) e : Prop :=
  wf e /\ replay (undo_records (m_undo e)) L0 = Some (m_lines e).

Lemma logged_replay L0 e e' :
  logged e e' ->
  replay (undo_records (m_undo e)) L0 = Some (m_lines e) ->
  replay (undo_records (m_undo e')) L0 = Some (m_lines e').
Proof.
  induction 1 as [e e' Hl Hu|e e' e'' rec _ IH Hu Hr]; intros H0.
  - by rewrite Hu, Hl.
  - rewrite Hu. simpl. by rewrite IH.
Qed.

Lemma logged_one e e' rec :
  undo_records (m_undo e') = rec :: undo_records (m_undo e) ->
  redo rec (m_lines e) = Some (m_lines e') -> logged e e'.
Proof. intros. eapply logged_rec; [by apply logged_none | done | done]. Qed.

Lemma logged_trans e1 e2 e3 : logged e1 e2 -> logged e2 e3 -> logged e1 e3.
Proof.
  intros H12 H23. induction H23 as [e e' Hl Hu|e e' e'' rec _ IH Hu Hr].
  - inversion H12 as [? ? Hl' Hu'|? ? ? rec' H' Hu' Hr']; subst.
    + apply logged_none; congruence.
    + apply (logged_rec _ _ _ rec' H'); congruence.
  - exact (logged_rec _ _ _ rec (IH H12) Hu Hr).
Qed.

End Logged.

(** ** Every edit submits the record that describes it *)

Section Edits.
Context {U : Type} `{!UndoLog U} `{!UndoLogSpec U}.
Implicit Types e : editor U.

Lemma lookup_char (l : line) c :
  c < length l -> l !! c = Some (str_at l c).
Proof.
  intros H. unfold str_at. destruct (lookup_lt_is_Some_2 l c H) as [x ->]. done.
Qed.

Theorem move_logged d e : logged e (move d e).
Proof.
  apply logged_none; destruct e as [ls r c it u];
    destruct d; cbn -[cur_line]; by repeat case_decide.
Qed.

Theorem insert_char_logged ch e :
  wf e -> logged e (insert_char ch e).
Proof.
  intros H. destruct e as [ls r c it u]. open_wf H.
  apply (logged_one _ _ (ActData INSERT r (S c) ch)); simpl;
    [apply undo_records_submit|].
  unfold redo; simpl. rewrite Hl. case_decide; [|lia]. by rewrite Nat.sub_0_r.
Qed.

Theorem insert_logged ch e : wf e -> logged e (insert ch e).
Proof.
  intros H. unfold insert. case_decide; [|by apply insert_char_logged]. simpl.
  repeat (eapply logged_trans; [|apply insert_char_logged;
    repeat apply insert_char_wf; exact H]).
  by apply logged_none.
Qed.

Theorem del_logged e : wf e -> logged e (del e).
Proof.
  intros H. destruct e as [ls r c it u]. open_wf H.
  cbn -[cur_line]. unfold cur_line; simpl. rewrite ?Hl. simpl.
  repeat case_decide.
  - rewrite delete_lookup_next.
    destruct (lookup_lt_is_Some_2 ls (S r)) as [n Hn]; [lia|]. rewrite Hn. simpl.
    apply (logged_one _ _ (ActData JOIN r c "000")); simpl;
      [apply undo_records_submit|].
    unfold redo, buf_join; simpl. rewrite Hl, Hn.
    do 2 (case_decide; [|lia]). subst c.
    rewrite insert_delete_here, ins_all_end by lia. done.
  - apply (logged_one _ _ (ActData DELETE r c (str_at l c))); simpl;
      [apply undo_records_submit|].
    unfold redo; simpl. rewrite Hl. rewrite lookup_char by lia.
    by case_decide.
  - by apply logged_none.
Qed.

Theorem backspace_logged e : wf e -> logged e (backspace e).
Proof.
  intros H. destruct e as [ls r c it u]. open_wf H.
  cbn -[cur_line]. unfold cur_line; simpl. rewrite ?Hl. simpl.
  repeat case_decide.
  - rewrite list_lookup_delete_lt by lia.
    destruct (lookup_lt_is_Some_2 ls (r - 1)) as [p Hp]; [lia|]. rewrite Hp. simpl.
    apply (logged_one _ _ (ActData JOIN (r - 1) (length p) "000")); simpl;
      [apply undo_records_submit|].
    unfold redo, buf_join; simpl. rewrite Hp.
    replace (S (r - 1)) with r by lia. rewrite Hl.
    do 2 (case_decide; [|lia]).
    replace r with (S (r - 1)) at 4 by lia.
    rewrite insert_delete_next, ins_all_end by lia.
    by replace (S (S (r - 1))) with (S r) by lia.
  - apply (logged_one _ _ (ActData DELETE r (c - 1) (str_at l (c - 1)))); simpl;
      [apply undo_records_submit|].
    unfold redo; simpl. rewrite Hl. rewrite lookup_char by lia.
    by case_decide.
  - by apply logged_none.
Qed.

Theorem enter_logged e : wf e -> logged e (enter e).
Proof.
  intros H. destruct e as [ls r c it u]. open_wf H.
  cbn -[cur_line]. unfold cur_line; simpl. rewrite ?Hl. simpl.
  apply (logged_one _ _ (ActData SPLIT r c "000")); simpl;
    [apply undo_records_submit|].
  unfold redo, buf_split; simpl. rewrite Hl. case_decide; [|lia].
  by rewrite ins_at_after_insert, str_resize_le by lia.
Qed.

(** C14. Every edit of the editor submits exactly the record that describes
    it: replaying that record on the old buffer gives the new one. *)
Theorem edits_logged d ch e :
  wf e ->
  logged e (move d e) /\ logged e (insert ch e) /\ logged e (del e) /\
  logged e (backspace e) /\ logged e (enter e).
Proof.
  intros H. split_and!;
    auto using move_logged, insert_logged, del_logged, backspace_logged, enter_logged.
Qed.

End Edits.

Lemma edits_logged_witness :
  wf (Editor [["a"]; ["b"]] 0 1 0 ([] : stack)) /\
  logged (Editor [["a"]; ["b"]] 0 1 0 []) (move RIGHT (Editor [["a"]; ["b"]] 0 1 0 [])) /\
  logged (Editor [["a"]; ["b"]] 0 1 0 []) (insert "x"%char (Editor [["a"]; ["b"]] 0 1 0 [])) /\
  logged (Editor [["a"]; ["b"]] 0 1 0 []) (del (Editor [["a"]; ["b"]] 0 1 0 [])) /\
  logged (Editor [["a"]; ["b"]] 0 1 0 []) (backspace (Editor [["a"]; ["b"]] 0 1 0 [])) /\
  logged (Editor [["a"]; ["b"]] 0 1 0 []) (enter (Editor [["a"]; ["b"]] 0 1 0 [])).
Proof.
  assert (Hw : wf (Editor [["a"]; ["b"]] 0 1 0 ([] : stack)))
    by (unfold wf, cur_line; simpl; lia).
  split; [exact Hw|]. exact (edits_logged RIGHT "x"%char _ Hw).
Defined.

(** ** Undo *)

Section UndoReplay.
Context {U : Type} `{!UndoLog U} `{!UndoLogSpec U}.
Implicit Types e : editor U.

(** The relative iterator walk of [undo] lands on the target row when the
    iterator was at the cursor row. *)
Lemma walk_to r n :
  (if decide (r < n) then r + (n - r) else r - (r - n)) = n.
Proof. case_decide; lia. Qed.

(** Refinement: the editor's replay of an action ([undo] after [get])
    changes the buffer exactly as [out_effect] says, leaves the cursor in
    range and the iterator on the cursor row. *)
Lemma undo_refines e a o u' L' :
  wf e -> undo_get (m_undo e) (Params 0 (m_c e) 0 []) = (a, o, u') ->
  a <> ERROR -> out_effect a o (m_lines e) = Some L' ->
  exists e', undo e = Some e' /\ m_lines e' = L' /\ m_undo e' = u' /\ wf e'.
Proof.
  intros H G Ha HO. destruct e as [ls r c it u]. open_wf H.
  unfold undo. rewrite G. case_decide; [done|]. rewrite walk_to.
  destruct o as [row col cnt txt]; simpl in *.
  unfold out_effect in HO. destruct a; [done| | | |]; simpl in HO.
  - destruct (ls !! row) as [l0|] eqn:E0; [|congruence].
    destruct (str_insert col l0 txt) as [l'|] eqn:EI; [|congruence]. inv_opt.
    assert (row < length ls) by (eapply lookup_lt_Some; eauto).
    apply str_insert_Some in EI as [? ->].
    eexists; split; [reflexivity|]; simpl; do 2 (split; [done|]).
    unfold wf, cur_line; simpl. rewrite default_lookup_insert by done.
    repeat split; len.
  - apply buf_split_Some in HO as (l0 & E0 & Hc0 & ->). rewrite E0. simpl.
    assert (row < length ls) by (eapply lookup_lt_Some; eauto).
    rewrite str_substr_ok by done.
    eexists; split; [reflexivity|]; simpl; split; [|split; [done|]].
    + by rewrite ins_at_after_insert, str_resize_le.
    + unfold wf; simpl. repeat split; len.
  - destruct (ls !! row) as [l0|] eqn:E0; [|congruence].
    destruct (str_erase col cnt l0) as [l'|] eqn:EI; [|congruence]. inv_opt.
    assert (row < length ls) by (eapply lookup_lt_Some; eauto).
    apply str_erase_Some in EI as [? ->].
    eexists; split; [reflexivity|]; simpl; do 2 (split; [done|]).
    unfold wf, cur_line; simpl. rewrite default_lookup_insert by done.
    repeat split; [len|]. by apply del_range_length_ge.
  - apply buf_join_Some in HO as (l0 & n & E0 & En & Hc0 & ->). rewrite En. simpl.
    assert (S row < length ls) by (eapply lookup_lt_Some; eauto).
    rewrite list_lookup_delete_lt, E0 by lia. simpl.
    rewrite str_insert_ok by done.
    eexists; split; [reflexivity|]; simpl; split; [|split; [done|]].
    + by rewrite insert_delete_next.
    + unfold wf, cur_line; simpl. rewrite default_lookup_insert by len.
      repeat split; len.
Qed.

Lemma redo_error r L : act r = ERROR -> redo r L = None.
Proof. unfold redo. by intros ->. Qed.

End UndoReplay.

Section Rewind.
Context {U : Type} `{!UndoLog U} `{!UndoLogSpec U}.
Implicit Types e : editor U.

(** One [undo] on a consistent editor with a non-empty log. *)
Lemma undo_step L0 e :
  consistent L0 e -> undo_records (m_undo e) <> [] ->
  exists e' p, undo e = Some e' /\ consistent L0 e' /\ p <> [] /\
    undo_records (m_undo e) = p ++ undo_records (m_undo e') /\
    replay p (m_lines e') = Some (m_lines e).
Proof.
  intros [Hwf HR] Hne.
  destruct (undo_get (m_undo e) (Params 0 (m_c e) 0 [])) as [[a o] u'] eqn:G.
  destruct (decide (a = ERROR)) as [->|Ha].
  - destruct (undo_get_error _ _ _ _ G Hne) as (r & Hr & Hact).
    rewrite Hr in HR. simpl in HR.
    destruct (replay (undo_records u') L0); [|done].
    by rewrite redo_error in HR.
  - destruct (undo_get_sound _ _ _ _ _ G Ha) as (p & Hp & Hst & Hinv).
    rewrite Hst in HR. apply replay_app_Some in HR as (Lm & HR' & Hp').
    destruct (undo_refines e a o u' Lm Hwf G Ha (Hinv _ _ Hp'))
      as (e' & He' & Hl & Hu & Hwf').
    exists e', p. split_and!; [done| |done|by rewrite Hu|by rewrite Hl].
    split; [done|]. by rewrite Hu, Hl.
Qed.

Lemma undo_step_shorter L0 e :
  consistent L0 e -> undo_records (m_undo e) <> [] ->
  exists e', undo e = Some e' /\ consistent L0 e' /\
    length (undo_records (m_undo e')) < length (undo_records (m_undo e)).
Proof.
  intros Hc Hne. destruct (undo_step L0 e Hc Hne) as (e' & p & He & Hc' & Hp & Hst & _).
  exists e'. split_and!; [done|done|]. rewrite Hst, length_app.
  destruct p; [done|]. simpl. lia.
Qed.

(** C3. [undo] on a consistent editor with a non-empty log succeeds (no
    [std::string] exception, no dereference of [end()]) and leaves a
    consistent editor; it pops a non-empty group of records, and that
    group, replayed from the new buffer, leads back to the old one: undo
    steps back exactly over the popped edits. *)
Theorem undo_rewinds L0 e :
  consistent L0 e -> undo_records (m_undo e) <> [] ->
  exists e' p, undo e = Some e' /\ consistent L0 e' /\ p <> [] /\
    undo_records (m_undo e) = p ++ undo_records (m_undo e') /\
    replay p (m_lines e') = Some (m_lines e).
Proof. apply undo_step. Qed.

(** [undo] with an empty log changes nothing (spec: edge no-op). *)
Theorem undo_on_empty e :
  undo_records (m_undo e) = [] -> undo e = Some e.
Proof.
  intros H. destruct e as [ls r c it u]. simpl in H. unfold undo.
  rewrite (undo_get_empty _ _ H). done.
Qed.

(** [n] successive calls to [undo]. *)
Fixpoint undo_n (n : nat) e : option (editor U) :=
  match n with
  | 0 => Some e
  | S n => let! e' := undo e in undo_n n e'
  end.

(** Undoing as many times as there are records (or more) always
    succeeds, empties the log and restores the text the trace starts
    from. *)
Theorem undo_all_restores L0 e n :
  consistent L0 e -> length (undo_records (m_undo e)) <= n ->
  exists e', undo_n n e = Some e' /\ m_lines e' = L0 /\
    undo_records (m_undo e') = [] /\ wf e'.
Proof.
  revert e. induction n as [|n IH]; intros e [Hwf HR] Hn; simpl.
  - destruct (undo_records (m_undo e)) eqn:E; [|simpl in Hn; lia].
    simpl in HR. inv_opt. eauto.
  - destruct (decide (undo_records (m_undo e) = [])) as [E|E].
    + rewrite undo_on_empty by done. apply IH; [done|]. rewrite E. simpl. lia.
    + destruct (undo_step_shorter L0 e (conj Hwf HR) E) as (e' & -> & Hc & Hlt).
      apply IH; [done|lia].
Qed.

End Rewind.

(** Every [INSERT] record of a replayable stack has a column of at
    least 1 ([redo] rejects column 0). *)
Lemma replay_insert_cols st L0 L :
  replay st L0 = Some L -> Forall (fun r => act r = INSERT -> 1 <= act_col r) st.
Proof.
  revert L. induction st as [|[a rw c ch] st IH]; intros L H; [constructor|].
  apply replay_cons_Some in H as (Lm & HR & Hr). constructor; [|by eapply IH].
  simpl. intros ->. destruct c; [by rewrite redo_insert_col0 in Hr|lia].
Qed.

(** ** Editing sessions *)

(** The commands the editor core offers its user interface. *)
Inductive command :=
  | CMove (d : dir) | CInsert (ch : ascii) | CDel | CBackspace | CEnter | CUndo.

Section Session.
Context {U : Type} `{!UndoLog U} `{!UndoLogSpec U}.
Implicit Types e : editor U.

Definition run (c : command) e : option (editor U) :=
  match c with
  | CMove d => Some (move d e)
  | CInsert ch => Some (insert ch e)
  | CDel => Some (del e)
  | CBackspace => Some (backspace e)
  | CEnter => Some (enter e)
  | CUndo => undo e
  end.

Fixpoint run_all (cs : list command) e : option (editor U) :=
  match cs with
  | [] => Some e
  | c :: cs' => let! e' := run c e in run_all cs' e'
  end.

Lemma logged_consistent L0 e e' :
  consistent L0 e -> logged e e' -> wf e' -> consistent L0 e'.
Proof. intros [_ HR] Hl Hw. split; [done|]. by eapply logged_replay. Qed.

(** Every command succeeds on a consistent editor and keeps it
    consistent. *)
Theorem run_consistent L0 c e :
  consistent L0 e -> exists e', run c e = Some e' /\ consistent L0 e'.
Proof.
  intros Hc. pose proof Hc as [Hw _].
  destruct c; simpl; try (eexists; split; [reflexivity|]).
  - eapply logged_consistent; eauto using move_logged, move_wf.
  - eapply logged_consistent; eauto using insert_logged, insert_wf.
  - eapply logged_consistent; eauto using del_logged, del_wf.
  - eapply logged_consistent; eauto using backspace_logged, backspace_wf.
  - eapply logged_consistent; eauto using enter_logged, enter_wf.
  - destruct (decide (undo_records (m_undo e) = [])) as [E|E].
    + rewrite undo_on_empty by done. eauto.
    + destruct (undo_step_shorter L0 e Hc E) as (e' & ? & ? & _). eauto.
Qed.

Lemma run_all_consistent L0 cs e :
  consistent L0 e -> exists e', run_all cs e = Some e' /\ consistent L0 e'.
Proof.
  revert e. induction cs as [|c cs IH]; intros e Hc; simpl; [eauto|].
  destruct (run_consistent L0 c e Hc) as (e1 & -> & Hc1). by apply IH.
Qed.

(** After a successful [load] the log is empty and the editor is
    consistent with the text that was read. *)
Lemma load_consistent contents e :
  consistent (m_lines (snd (load (Some contents) e))) (snd (load (Some contents) e)).
Proof.
  split.
  - apply load_wf.
  - simpl. by rewrite undo_records_clear.
Qed.

(** C1. The main property of the core: after loading a file, any sequence of
    moves, insertions, deletions, line splits and undos runs without
    failure, and undoing as many times as the log has records brings the
    buffer back to the text that was loaded. *)
Theorem session_undo_restores contents e cs :
  let e1 := snd (load (Some contents) e) in
  exists e2, run_all cs e1 = Some e2 /\
    forall n, length (undo_records (m_undo e2)) <= n ->
      exists e3, undo_n n e2 = Some e3 /\ m_lines e3 = m_lines e1.
Proof.
  intros e1. destruct (run_all_consistent _ cs e1 (load_consistent contents e))
    as (e2 & He2 & Hc2).
  exists e2. split; [done|]. intros n Hn.
  destruct (undo_all_restores _ e2 n Hc2 Hn) as (e3 & ? & ? & _). eauto.
Qed.

(** C15. Spec: the edge cases are no-ops that leave the state unchanged:
    [move(UP)] on the first row, [move(LEFT)] at the start of the
    buffer, [del] at the end of the last line and [undo] with an empty
    log. *)
Theorem edge_noops e :
  (m_r e = 0 -> run (CMove UP) e = Some e) /\
  (m_r e = 0 -> m_c e = 0 -> run (CMove LEFT) e = Some e) /\
  (m_r e = length (m_lines e) - 1 -> m_c e = length (cur_line e) -> run CDel e = Some e) /\
  (undo_records (m_undo e) = [] -> run CUndo e = Some e).
Proof.
  split_and!; [| | |apply undo_on_empty]; destruct e as [ls r c it u]; simpl; intros.
  - by rewrite decide_False by lia.
  - by rewrite !decide_False by lia.
  - unfold del. rewrite !decide_False by lia. done.
Qed.

(** C16. Bounds: in every state reached from a successful [load] by any
    sequence of commands, every [INSERT] record on the log has a column of
    at least 1, so the [cur->col - 1] of [StudentUndo::get] never goes
    below 0 and the [nat] column of the model agrees with the [int] one. *)
Theorem insert_records_col_pos contents e cs e2 :
  run_all cs (snd (load (Some contents) e)) = Some e2 ->
  Forall (fun r => act r = INSERT -> 1 <= act_col r) (undo_records (m_undo e2)).
Proof.
  intros Hrun.
  destruct (run_all_consistent _ cs _ (load_consistent contents e)) as (e2' & He2 & [_ HR]).
  rewrite Hrun in He2. injection He2 as <-. by eapply replay_insert_cols.
Qed.

End Session.

(** ** Undo of single steps and of runs, on [StudentUndo]

    These theorems fix the undo object to [StudentUndo] (the stack of
    records is the [editor]'s [m_undo] field) and compute exactly what one
    [undo] does after a given edit or run of edits. *)

Section Scenarios.
#[local] Open Scope char_scope.

(** Typing a string, one [insert] per character. *)
Definition type_string (s : line) (e : editor stack) : editor stack :=
  fold_left (fun e ch => insert ch e) s e.

Definition backspaces (k : nat) (e : editor stack) : editor stack :=
  Nat.iter k backspace e.

Definition dels (k : nat) (e : editor stack) : editor stack := Nat.iter k del e.

(** The characters [insert] puts in the line: a tab is four spaces. *)
Definition expand_tabs (s : line) : line :=
  s ≫= (fun ch => if decide (ch = "009") then [" "; " "; " "; " "] else [ch]).

Lemma type_string_expand s e : type_string s e = type_string (expand_tabs s) e.
Proof.
  revert e. induction s as [|ch s IH]; intros e; [done|].
  unfold type_string in *. cbn [fold_left]. rewrite IH.
  unfold expand_tabs. rewrite bind_cons, fold_left_app. f_equal.
  unfold insert at 1. case_decide; simpl; unfold insert; by rewrite ?decide_False.
Qed.

Lemma expand_tabs_no_tab s : Forall (fun ch => ch <> "009") (expand_tabs s).
Proof.
  induction s as [|ch s IH]; [constructor|]. unfold expand_tabs in *.
  rewrite bind_cons. apply Forall_app. split; [|done].
  case_decide; repeat constructor; done.
Qed.

Lemma expand_tabs_nil s : expand_tabs s = [] -> s = [].
Proof.
  destruct s as [|ch s]; [done|]. unfold expand_tabs. rewrite bind_cons.
  by case_decide.
Qed.

Lemma type_string_spec s ls r c u l :
  ls !! r = Some l -> c <= length l -> Forall (fun ch => ch <> "009") s ->
  type_string s (Editor ls r c r u) =
  Editor (<[r := ins_all c s l]> ls) r (c + length s) r (ins_run r c (rev s) ++ u).
Proof.
  intros Hl Hc. induction s as [|ch s IH] using rev_ind; intros Hs.
  - simpl. rewrite ins_all_nil_id, list_insert_id, Nat.add_0_r by done. done.
  - apply Forall_app in Hs as [Hs Hch]. inversion Hch; subst.
    unfold type_string in *. rewrite fold_left_app, IH by done. simpl.
    unfold insert. rewrite decide_False by done. simpl. unfold cur_line; simpl.
    assert (r < length ls) by (eapply lookup_lt_Some; eauto).
    rewrite list_lookup_insert_eq by done. simpl.
    rewrite ins_at_ins_all, ins_at_end, list_insert_insert_eq by lia.
    rewrite rev_app_distr, length_app. simpl. rewrite length_rev.
    unfold StudentUndo.submit. f_equal; [lia|]. do 3 f_equal. lia.
Qed.

(** C7. Spec: typing a non-empty string (a tab types four spaces) and
    undoing once removes everything typed and puts the cursor back where
    typing started, provided the record below the run does not continue
    it. *)
Theorem undo_typed_word ls r c u l s0 :
  ls !! r = Some l -> c <= length l -> s0 <> [] -> ~ extends_ins r c u ->
  undo (type_string s0 (Editor ls r c r u)) = Some (Editor ls r c r u).
Proof.
  intros Hl Hc Hs0 Hx. rewrite type_string_expand.
  pose proof (expand_tabs_no_tab s0) as Ht.
  assert (Hs : expand_tabs s0 <> []) by (intros E; by apply Hs0, expand_tabs_nil).
  revert Ht Hs. generalize (expand_tabs s0). intros s Ht Hs.
  rewrite (type_string_spec s ls r c u l) by done.
  assert (r < length ls) by (eapply lookup_lt_Some; eauto).
  assert (Hr : rev s <> []) by (intros E; apply Hs; rewrite <- (rev_involutive s), E; done).
  destruct (rev s) as [|x xs] eqn:E; [done|].
  assert (Hlen : length s = S (length xs)) by (rewrite <- length_rev, E; done).
  unfold undo. cbn [undo_get student_undo]. rewrite get_typing_run by done.
  simpl. rewrite walk_to, list_lookup_insert_eq by done. simpl.
  rewrite str_erase_ok by (rewrite length_ins_all; lia).
  rewrite <- Hlen, del_range_ins_all, list_insert_insert_eq, list_insert_id by done.
  done.
Qed.

Lemma undo_typed_word_witness :
  ([[]] : buffer) !! 0 = Some ([] : line) /\ 0 <= length (@nil ascii) /\
  ["009"; "c"; "a"; "t"] <> [] /\ ~ extends_ins 0 0 [] /\
  undo (type_string ["009"; "c"; "a"; "t"] (Editor [[]] 0 0 0 [])) = Some (Editor [[]] 0 0 0 []).
Proof.
  split_and!; [done|simpl; lia|done|simpl; tauto|].
  apply (undo_typed_word [[]] 0 0 [] []); [done|simpl; lia|done|simpl; tauto].
Defined.

Lemma backspaces_spec k ls r c u l :
  ls !! r = Some l -> c <= length l -> k <= c ->
  backspaces k (Editor ls r c r u) =
  Editor (<[r := del_range (c - k) k l]> ls) r (c - k) r
    (bs_run r (c - k) (take k (drop (c - k) l)) ++ u).
Proof.
  intros Hl Hc. assert (r < length ls) by (eapply lookup_lt_Some; eauto).
  induction k as [|k IH]; intros Hk.
  - simpl. by rewrite Nat.sub_0_r, del_range_0, list_insert_id.
  - unfold backspaces in *. simpl. rewrite IH by lia. clear IH.
    destruct (lookup_lt_is_Some_2 l (c - S k)) as [x Hx]; [lia|].
    unfold backspace, cur_line; simpl. rewrite list_lookup_insert_eq by done. simpl.
    rewrite decide_False by lia. rewrite decide_True by lia.
    replace (c - k - 1) with (c - S k) by lia.
    replace (c - k) with (S (c - S k)) by lia.
    rewrite del_range_merge, list_insert_insert_eq by lia.
    unfold str_at. rewrite lookup_del_range_lt, Hx by lia. simpl.
    by rewrite (take_S_drop (c - S k) k l x Hx).
Qed.

(** C8. Spec divergence: pressing backspace [k] times and undoing once puts
    the text back, but the cursor ends where the backspaces stopped
    ([c - k]), not where they started ([c]): [get] reports the column of
    the last deletion and [undo] puts the cursor there. *)
Theorem undo_backspaces_cursor ls r c u l k :
  ls !! r = Some l -> c <= length l -> 0 < k <= c ->
  ~ extends_del r (c - 1) u ->
  undo (backspaces k (Editor ls r c r u)) = Some (Editor ls r (c - k) r u).
Proof.
  intros Hl Hc Hk Hx. rewrite (backspaces_spec k ls r c u l) by (done || lia).
  assert (r < length ls) by (eapply lookup_lt_Some; eauto).
  destruct k as [|k]; [lia|].
  destruct (lookup_lt_is_Some_2 l (c - S k)) as [x Hx']; [lia|].
  rewrite (take_S_drop (c - S k) k l x Hx').
  unfold undo. cbn [undo_get student_undo]. rewrite get_backspace_run.
  2: { rewrite length_take, length_drop. by replace (c - S k + k `min` (length l - S (c - S k)))
         with (c - 1) by lia. }
  simpl. rewrite walk_to, list_lookup_insert_eq by done. simpl.
  rewrite str_insert_ok by (apply del_range_length_ge; lia).
  rewrite <- (take_S_drop (c - S k) k l x Hx'), ins_all_del_range by lia.
  by rewrite list_insert_insert_eq, list_insert_id.
Qed.

Lemma undo_backspaces_cursor_witness :
  ([["c"; "a"; "t"]] : buffer) !! 0 = Some ["c"; "a"; "t"] /\ 3 <= length ["c"; "a"; "t"] /\
  0 < 3 <= 3 /\ ~ extends_del 0 (3 - 1) [] /\
  undo (backspaces 3 (Editor [["c"; "a"; "t"]] 0 3 0 [])) =
    Some (Editor [["c"; "a"; "t"]] 0 (3 - 3) 0 []).
Proof.
  split_and!; [done|simpl; lia|lia|lia|simpl; tauto|].
  apply (undo_backspaces_cursor _ _ _ _ ["c"; "a"; "t"]); [done|simpl; lia|lia|simpl; tauto].
Defined.

Lemma dels_spec k ls r c u l :
  ls !! r = Some l -> c + k <= length l ->
  dels k (Editor ls r c r u) =
  Editor (<[r := del_range c k l]> ls) r c r (fd_run r c (rev (take k (drop c l))) ++ u).
Proof.
  intros Hl. assert (r < length ls) by (eapply lookup_lt_Some; eauto).
  induction k as [|k IH]; intros Hk.
  - simpl. by rewrite del_range_0, list_insert_id.
  - unfold dels in *. simpl. rewrite IH by lia. clear IH.
    destruct (lookup_lt_is_Some_2 l (c + k)) as [x Hx]; [lia|].
    unfold del, cur_line; simpl. rewrite list_lookup_insert_eq by done. simpl.
    rewrite length_del_range by lia.
    rewrite decide_False by lia. rewrite decide_True by lia.
    rewrite del_range_twice, list_insert_insert_eq by lia.
    unfold str_at. rewrite lookup_del_range_here, Hx by lia. simpl.
    rewrite (take_S_r (drop c l) k x) by (rewrite lookup_drop; done).
    by rewrite rev_app_distr.
Qed.

(** C9. Spec: forward-deleting [k] characters and undoing once restores the
    text and the cursor exactly. *)
Theorem undo_dels ls r c u l k :
  ls !! r = Some l -> 0 < k -> c + k <= length l -> ~ extends_del r c u ->
  undo (dels k (Editor ls r c r u)) = Some (Editor ls r c r u).
Proof.
  intros Hl Hk Hc Hx. rewrite (dels_spec k ls r c u l) by done.
  assert (r < length ls) by (eapply lookup_lt_Some; eauto).
  destruct k as [|k]; [lia|].
  destruct (lookup_lt_is_Some_2 l (c + k)) as [x Hx']; [lia|].
  rewrite (take_S_r (drop c l) k x) by (rewrite lookup_drop; done).
  unfold undo. cbn [undo_get student_undo]. rewrite get_forward_run by done.
  simpl. rewrite walk_to, list_lookup_insert_eq by done. simpl.
  rewrite str_insert_ok by (apply del_range_length_ge; lia).
  rewrite <- (take_S_r (drop c l) k x) by (rewrite lookup_drop; done).
  rewrite ins_all_del_range by lia.
  by rewrite list_insert_insert_eq, list_insert_id.
Qed.

Lemma undo_dels_witness :
  ([["c"; "a"; "t"]] : buffer) !! 0 = Some ["c"; "a"; "t"] /\ 0 < 2 /\
  1 + 2 <= length ["c"; "a"; "t"] /\ ~ extends_del 0 1 [] /\
  undo (dels 2 (Editor [["c"; "a"; "t"]] 0 1 0 [])) = Some (Editor [["c"; "a"; "t"]] 0 1 0 []).
Proof.
  split_and!; [done|lia|simpl; lia|simpl; tauto|].
  apply (undo_dels _ _ _ _ ["c"; "a"; "t"]); [done|lia|simpl; lia|simpl; tauto].
Defined.

(** C10. Spec: [enter] followed by [undo] restores the text and the cursor
    exactly, whatever the log held before ([SPLIT] is never batched). *)
Theorem undo_enter (e : editor stack) : wf e -> run_all [CEnter; CUndo] e = Some e.
Proof.
  intros H. cbn [run_all run]. destruct e as [ls r c it u]. open_wf H.
  unfold undo. cbn [undo_get student_undo]. simpl.
  rewrite decide_False by lia. replace (S r - (S r - r)) with r by lia.
  rewrite lookup_ins_at_here by len. simpl.
  rewrite delete_ins_at by len. rewrite list_lookup_insert_eq by done. simpl.
  rewrite str_resize_le by done. rewrite str_insert_ok by len.
  rewrite ins_all_take_drop, list_insert_insert_eq, list_insert_id by done.
  done.
Qed.

Lemma undo_enter_witness :
  wf (Editor [["h"; "e"; "l"; "l"; "o"]] 0 2 0 ([] : stack)) /\
  run_all [CEnter; CUndo] (Editor [["h"; "e"; "l"; "l"; "o"]] 0 2 0 ([] : stack)) =
    Some (Editor [["h"; "e"; "l"; "l"; "o"]] 0 2 0 []).
Proof.
  assert (Hw : wf (Editor [["h"; "e"; "l"; "l"; "o"]] 0 2 0 ([] : stack)))
    by (unfold wf, cur_line; simpl; lia).
  split; [exact Hw|]. exact (undo_enter _ Hw).
Defined.

(** C11. Spec divergence: forward delete at the end of a line followed by
    [undo] restores the text, but the cursor lands at the start of the
    next line, not back at the end of the joined line ([SPLIT] replays
    [enter]). *)
Theorem undo_del_join_cursor (e : editor stack) :
  wf e -> m_c e = length (cur_line e) -> m_r e <> length (m_lines e) - 1 ->
  run_all [CDel; CUndo] e = Some (Editor (m_lines e) (S (m_r e)) 0 (S (m_r e)) (m_undo e)).
Proof.
  intros H Hc' Hr'. cbn [run_all run]. destruct e as [ls r c it u]. open_wf H.
  destruct (lookup_lt_is_Some_2 ls (S r)) as [n Hn]; [lia|].
  unfold del, cur_line; simpl. rewrite ?Hl. simpl.
  rewrite decide_True by lia. rewrite delete_lookup_next, Hn. simpl.
  unfold undo. cbn [undo_get student_undo]. simpl. rewrite walk_to.
  rewrite list_lookup_insert_eq by len. simpl.
  rewrite str_substr_ok by (rewrite length_app; lia). subst c.
  rewrite drop_app_length, insert_delete_here by lia.
  by rewrite resplit_joined.
Qed.

Lemma undo_del_join_cursor_witness :
  wf (Editor [["a"]; ["b"]] 0 1 0 ([] : stack)) /\
  m_c (Editor [["a"]; ["b"]] 0 1 0 ([] : stack)) =
    length (cur_line (Editor [["a"]; ["b"]] 0 1 0 ([] : stack))) /\
  m_r (Editor [["a"]; ["b"]] 0 1 0 ([] : stack)) <>
    length (m_lines (Editor [["a"]; ["b"]] 0 1 0 ([] : stack))) - 1 /\
  run_all [CDel; CUndo] (Editor [["a"]; ["b"]] 0 1 0 ([] : stack)) = Some (Editor [["a"]; ["b"]] 1 0 1 []).
Proof.
  assert (Hw : wf (Editor [["a"]; ["b"]] 0 1 0 ([] : stack)))
    by (unfold wf, cur_line; simpl; lia).
  split_and!; [exact Hw|reflexivity|simpl; lia|].
  exact (undo_del_join_cursor _ Hw eq_refl ltac:(simpl; lia)).
Defined.

(** C12. Spec: backspace at the start of a line followed by [undo] restores
    the text and the cursor exactly. *)
Theorem undo_backspace_join (e : editor stack) :
  wf e -> m_c e = 0 -> m_r e <> 0 -> run_all [CBackspace; CUndo] e = Some e.
Proof.
  intros H Hc' Hr'. cbn [run_all run]. destruct e as [ls r c it u]. open_wf H.
  destruct r as [|r]; [done|]. rewrite ?Nat.sub_succ, ?Nat.sub_0_r in *.
  destruct (lookup_lt_is_Some_2 ls r) as [p Hp]; [lia|].
  unfold backspace, cur_line; simpl. rewrite ?Hl. simpl.
  rewrite ?Nat.sub_0_r, list_lookup_delete_lt, Hp by lia. simpl.
  unfold undo. cbn [undo_get student_undo]. simpl. rewrite walk_to.
  rewrite list_lookup_insert_eq by len. simpl.
  rewrite str_substr_ok by (rewrite length_app; lia).
  rewrite drop_app_length, (insert_delete_next ls r (p ++ l)) by lia.
  by rewrite resplit_joined.
Qed.

End Scenarios.

(** ** Witnesses on concrete editors *)

Definition typed_a : editor stack :=
  Editor [["a"]] 0 1 0 [ActData INSERT 0 1 "a"].

Lemma typed_a_consistent : consistent [[]] typed_a.
Proof. split; [unfold wf, cur_line; simpl; lia|reflexivity]. Qed.

Lemma undo_rewinds_witness :
  consistent [[]] typed_a /\ undo_records (m_undo typed_a) <> [] /\
  exists e' p, undo typed_a = Some e' /\ consistent [[]] e' /\ p <> [] /\
    undo_records (m_undo typed_a) = p ++ undo_records (m_undo e') /\
    replay p (m_lines e') = Some (m_lines typed_a).
Proof.
  split_and!; [exact typed_a_consistent|discriminate|].
  apply undo_rewinds; [exact typed_a_consistent|discriminate].
Defined.

Lemma undo_backspace_join_witness :
  wf (Editor [["a"]; ["b"]] 1 0 1 ([] : stack)) /\
  m_c (Editor [["a"]; ["b"]] 1 0 1 ([] : stack)) = 0 /\
  m_r (Editor [["a"]; ["b"]] 1 0 1 ([] : stack)) <> 0 /\
  run_all [CBackspace; CUndo] (Editor [["a"]; ["b"]] 1 0 1 ([] : stack)) = Some (Editor [["a"]; ["b"]] 1 0 1 []).
Proof.
  assert (Hw : wf (Editor [["a"]; ["b"]] 1 0 1 ([] : stack)))
    by (unfold wf, cur_line; simpl; lia).
  split_and!; [exact Hw|reflexivity|discriminate|].
  exact (undo_backspace_join _ Hw eq_refl ltac:(discriminate)).
Defined.

Lemma edge_noops_witness :
  run (CMove UP) (Editor [["a"]] 0 1 0 ([] : stack)) = Some (Editor [["a"]] 0 1 0 []) /\
  run (CMove LEFT) (Editor [["a"]] 0 0 0 ([] : stack)) = Some (Editor [["a"]] 0 0 0 []) /\
  run CDel (Editor [["a"]] 0 1 0 ([] : stack)) = Some (Editor [["a"]] 0 1 0 []) /\
  run CUndo (Editor [["a"]] 0 1 0 ([] : stack)) = Some (Editor [["a"]] 0 1 0 []).
Proof.
  destruct (edge_noops (Editor [["a"]] 0 1 0 [])) as (H1 & _ & H3 & H4).
  destruct (edge_noops (Editor [["a"]] 0 0 0 [])) as (_ & H2 & _ & _).
  split_and!; [apply H1 | apply H2 | apply H3 | apply H4]; reflexivity.
Defined.

Lemma insert_records_col_pos_witness :
  run_all [CInsert "b"; CEnter; CInsert "c"] (snd (load (Some ["a"]) (create ([] : stack)))) =
    Some (Editor [["b"]; ["c"; "a"]] 1 1 1
            [ActData INSERT 1 1 "c"; ActData SPLIT 0 1 "000"; ActData INSERT 0 1 "b"]) /\
  Forall (fun r => act r = INSERT -> 1 <= act_col r)
    [ActData INSERT 1 1 "c"; ActData SPLIT 0 1 "000"; ActData INSERT 0 1 "b"].
Proof.
  assert (H : run_all [CInsert "b"; CEnter; CInsert "c"] (snd (load (Some ["a"]) (create ([] : stack)))) =
    Some (Editor [["b"]; ["c"; "a"]] 1 1 1
            [ActData INSERT 1 1 "c"; ActData SPLIT 0 1 "000"; ActData INSERT 0 1 "b"]))
    by (vm_compute; reflexivity).
  split; [exact H|]. exact (insert_records_col_pos _ _ _ _ H).
Defined.

Lemma session_undo_restores_witness :
  exists e2, run_all [CInsert "a"; CEnter; CInsert "b"; CUndo; CBackspace]
                     (snd (load (Some ["x"; "010"]) (create ([] : stack)))) = Some e2 /\
    forall n, length (undo_records (m_undo e2)) <= n ->
      exists e3, undo_n n e2 = Some e3 /\
        m_lines e3 = m_lines (snd (load (Some ["x"; "010"]) (create ([] : stack)))).
Proof. exact (session_undo_restores ["x"; "010"] (create []) _). Defined.
