(* ===== verification/Trie.v ===== *)
(** * Trie: the dictionary of [StudentSpellCheck]

    [src/Wurd/StudentSpellCheck.{h,cpp}] keep the dictionary as a trie of
    [struct Node { char val; bool end; Node* next[27]; }] reached from the
    dummy node [m_head].  A [Node*] is [Null] or a [Node]; the array
    [next] is a function from indices to pointers, of which the code reads
    indices [0 .. 26] only.  The trie is a tree (no node is shared), so
    the in-place updates of [load] are rebuilt along the path they change.

    A read [cur->next[i]] with [i = -1] (a character that is neither a
    letter nor an apostrophe) is outside the array: undefined behaviour,
    the [None] of [child] and of every function that performs such a
    read.  [tolower] is the C locale's, on characters [0 .. 255].

    The file proves what [load] and [checkWord] compute: after [load],
    [checkWord] accepts exactly the lower-cased words already present or
    read from the dictionary, once the characters that are not letters
    or apostrophes are filtered out of each line. *)

From S2P Require Import Prelude Text.
From Stdlib Require Import ZArith.

#[local] Open Scope char_scope.

Module StudentSpellCheck.

(** ** Nodes and characters *)

(** A [Node*]: [nullptr] or a node with its fields [val], [end] and
    [next]. *)
Inductive trie :=
  | Null
  | Node (val : ascii) (end_ : bool) (next : nat -> trie).

(** [Node(char c = 0)]: [end] is false and every [next[i]] is [nullptr]. *)
Definition new_node (c : ascii) : trie := Node c false (fun _ => Null).

(** [StudentSpellCheck()]: [m_head = new Node()]. *)
Definition create : trie := new_node "000".

(** [tolower] in the C locale: ['A' .. 'Z'] to ['a' .. 'z']. *)
Definition tolower (ch : ascii) : ascii :=
  let n := nat_of_ascii ch in
  if decide (65 <= n <= 90) then ascii_of_nat (n + 32) else ch.

(** [int getIndex(char ch) const] *)
Definition getIndex (ch : ascii) : Z :=
  if decide (ch = "'") then 26%Z
  else
    let d := (Z.of_nat (nat_of_ascii ch) - Z.of_nat (nat_of_ascii "a"))%Z in
    if decide (0 <= d <= 25)%Z then d else (-1)%Z.

(** [cur->next[i]]: [None] when [cur] is [nullptr] or [i] is outside the
    array. *)
Definition child (cur : trie) (i : Z) : option trie :=
  match cur with
  | Null => None
  | Node _ _ nx => if decide (0 <= i < 27)%Z then Some (nx (Z.to_nat i)) else None
  end.

(** [cur->next[k] = t] *)
Definition set_child (cur : trie) (k : nat) (t : trie) : trie :=
  match cur with
  | Null => Null
  | Node v e nx => Node v e (fun j => if decide (j = k) then t else nx j)
  end.

(** [cur->end = true] *)
Definition set_end (cur : trie) : trie :=
  match cur with
  | Null => Null
  | Node v _ nx => Node v true nx
  end.

(** [cur != nullptr && cur->end == true] *)
Definition is_end (t : trie) : bool :=
  match t with
  | Node _ true _ => true
  | _ => false
  end.

(** ** [checkWord] *)

(** The loop [for (i = 0; i < word.size() && cur != nullptr; ++i)
    cur = cur->next[getIndex(tolower(word[i]))];]. *)
Fixpoint check_loop (cur : trie) (w : list ascii) : option trie :=
  match w with
  | [] => Some cur
  | ch :: w' =>
      match cur with
      | Null => Some Null
      | Node _ _ _ =>
          let! cur' := child cur (getIndex (tolower ch)) in
          check_loop cur' w'
      end
  end.

(** [bool checkWord(std::string word) const] *)
Definition checkWord (head : trie) (w : list ascii) : option bool :=
  let! cur := check_loop head w in Some (is_end cur).

(** ** [load] *)

(** One iteration of the [while (getline(infile, str))] loop: walk down
    from [cur], creating [new Node(c)] where a child is missing and
    skipping the characters whose index is [-1], then [cur->end = true]. *)
Fixpoint add_word (s : list ascii) (cur : trie) : trie :=
  match s with
  | [] => set_end cur
  | ch :: s' =>
      let c := tolower ch in
      let index := getIndex c in
      if decide (index = -1)%Z then add_word s' cur
      else
        let nx := match child cur index with
                  | Some (Node _ _ _ as n) => n
                  | _ => new_node c
                  end in
        set_child cur (Z.to_nat index) (add_word s' nx)
  end.

(** [bool load(std::string dictionaryFile)]: [None] when the file cannot
    be opened.  The words are added to the trie already there. *)
Definition load (dict : option (list ascii)) (head : trie) : bool * trie :=
  match dict with
  | None => (false, head)
  | Some contents =>
      (true, fold_left (fun t str => add_word str t) (getlines contents) head)
  end.

End StudentSpellCheck.

Import StudentSpellCheck.

(** ** The abstraction: the words of a trie *)

(** A character the trie can index. *)
Definition letter (ch : ascii) : Prop := getIndex ch <> (-1)%Z.

#[export] Instance letter_dec ch : Decision (letter ch).
Proof. unfold letter. apply _. Defined.

(** The word [load] stores for a dictionary line. *)
Definition norm (s : list ascii) : list ascii := filter letter (map tolower s).

(** The path of a word through the trie, as [check_loop] follows it when
    every character is a letter. *)
Fixpoint walk (t : trie) (w : list ascii) {struct w} : trie :=
  match w with
  | [] => t
  | ch :: w' =>
      match t with
      | Null => Null
      | Node _ _ nx => walk (nx (Z.to_nat (getIndex (tolower ch)))) w'
      end
  end.

(** The dictionary a trie stands for. *)
Definition in_trie (t : trie) (w : list ascii) : bool := is_end (walk t w).

(** The labels of the nodes: the child at index [l] holds the character
    whose index is [l] ([new Node(c)] is created at [getIndex(c)]). *)
Definition label_ok (l : nat) (t : trie) : Prop :=
  match t with
  | Null => True
  | Node v _ _ => letter v /\ Z.to_nat (getIndex v) = l
  end.

Fixpoint vals_ok (t : trie) : Prop :=
  match t with
  | Null => True
  | Node _ _ nx => forall l, l < 27 -> label_ok l (nx l) /\ vals_ok (nx l)
  end.

(** ** Characters *)

Lemma nat_of_ascii_inj c c' : nat_of_ascii c = nat_of_ascii c' -> c = c'.
Proof.
  intros H. rewrite <- (ascii_nat_embedding c), <- (ascii_nat_embedding c').
  by f_equal.
Qed.

Lemma getIndex_range ch : getIndex ch = (-1)%Z \/ (0 <= getIndex ch < 27)%Z.
Proof. unfold getIndex. repeat case_decide; lia. Qed.

Lemma letter_range ch : letter ch -> (0 <= getIndex ch < 27)%Z.
Proof. unfold letter. destruct (getIndex_range ch); lia. Qed.

(** [getIndex] tells the letters apart. *)
Lemma getIndex_inj ch ch' :
  letter ch -> getIndex ch = getIndex ch' -> ch = ch'.
Proof.
  unfold letter, getIndex. intros Hl.
  repeat case_decide; subst; try done; try lia.
  intros. apply nat_of_ascii_inj. lia.
Qed.

Lemma getIndex_inj_nat ch ch' :
  letter ch -> letter ch' ->
  Z.to_nat (getIndex ch) = Z.to_nat (getIndex ch') -> ch = ch'.
Proof.
  intros H H' E. apply getIndex_inj; [done|].
  apply letter_range in H. apply letter_range in H'. lia.
Qed.

(** ** Walking the trie *)

Lemma walk_Null w : walk Null w = Null.
Proof. by destruct w. Qed.

Lemma in_trie_Null w : in_trie Null w = false.
Proof. unfold in_trie. by rewrite walk_Null. Qed.

Lemma in_trie_new_node c w : in_trie (new_node c) w = false.
Proof. destruct w as [|ch w]; [done|]. exact (in_trie_Null w). Qed.

(** On a word of letters [check_loop] never reads outside the array and
    follows [walk]. *)
Lemma check_loop_walk t w :
  Forall (fun ch => letter (tolower ch)) w -> check_loop t w = Some (walk t w).
Proof.
  intros Hw. revert t. induction Hw as [|ch w Hc _ IH]; intros t; [done|].
  destruct t as [|v e nx]; [done|]. simpl.
  apply letter_range in Hc. rewrite decide_True by done. simpl. apply IH.
Qed.

Lemma checkWord_in_trie t w :
  Forall (fun ch => letter (tolower ch)) w -> checkWord t w = Some (in_trie t w).
Proof. intros Hw. unfold checkWord. by rewrite check_loop_walk. Qed.

Lemma set_child_not_Null t k x : t <> Null -> set_child t k x <> Null.
Proof. by destruct t. Qed.

Lemma add_word_not_Null s t : t <> Null -> add_word s t <> Null.
Proof.
  revert t. induction s as [|ch s IH]; intros t Ht; simpl; [by destruct t|].
  case_decide; [by apply IH|]. by apply set_child_not_Null.
Qed.

(** The child [add_word] descends into is never [nullptr]. *)
Lemma add_word_child t i c :
  let nx := match child t i with Some (Node _ _ _ as n) => n | _ => new_node c end in
  nx <> Null /\ forall w, in_trie nx w = in_trie (default Null (child t i)) w.
Proof.
  simpl. destruct (child t i) as [[|v e f]|]; split; try done;
    intros w; simpl; rewrite ?in_trie_new_node, ?in_trie_Null; done.
Qed.

Lemma bool_decide_cons_eq (x y : ascii) (l l' : list ascii) :
  bool_decide (x :: l = y :: l') = bool_decide (x = y) && bool_decide (l = l').
Proof. repeat case_bool_decide; naive_solver. Qed.

Lemma norm_cons ch s :
  norm (ch :: s) = if decide (letter (tolower ch)) then tolower ch :: norm s else norm s.
Proof. unfold norm. cbn [map]. by rewrite filter_cons. Qed.

(** A node walked through a child that is not the one [add_word] changed
    keeps its words. *)
Lemma in_trie_set_child v e nx k x c w :
  in_trie (set_child (Node v e nx) k x) (c :: w) =
  in_trie (if decide (Z.to_nat (getIndex (tolower c)) = k) then x
           else nx (Z.to_nat (getIndex (tolower c)))) w.
Proof. reflexivity. Qed.

(** What one line of the dictionary adds: [add_word s] inserts [norm s]
    and keeps every word already there. *)
Lemma add_word_spec s : forall t w,
  t <> Null -> Forall (fun ch => letter (tolower ch)) w ->
  in_trie (add_word s t) w = bool_decide (map tolower w = norm s) || in_trie t w.
Proof.
  induction s as [|ch s IH]; intros t w Ht Hw.
  - destruct t as [|v e nx]; [done|]. destruct w as [|c w]; [done|].
    by rewrite bool_decide_false.
  - rewrite norm_cons. cbn [add_word].
    destruct (decide (letter (tolower ch))) as [Hl|Hl]; [|rewrite decide_True by (unfold letter in Hl; lia); auto].
    rewrite decide_False by done. destruct (add_word_child t (getIndex (tolower ch)) (tolower ch)) as [Hn Hin].
    destruct t as [|v e nx]; [done|]. destruct w as [|c w]; [by rewrite bool_decide_false|].
    inversion Hw as [|? ? Hc Hw']; subst. rewrite in_trie_set_child. cbn [map]. rewrite bool_decide_cons_eq.
    case_decide as E.
    + assert (tolower c = tolower ch) as Hcc by (by apply getIndex_inj_nat).
      rewrite IH, Hin by done. cbn [child]. rewrite decide_True by (by apply letter_range).
      change (in_trie (Node v e nx) (c :: w))
        with (in_trie (nx (Z.to_nat (getIndex (tolower c)))) w).
      by rewrite Hcc, (bool_decide_true (tolower ch = tolower ch)).
    + rewrite bool_decide_false; [done|]. intros Heq. apply E. by rewrite Heq.
Qed.

Lemma fold_add_word_spec lines : forall t w,
  t <> Null -> Forall (fun ch => letter (tolower ch)) w ->
  in_trie (fold_left (fun t str => add_word str t) lines t) w =
  bool_decide (map tolower w ∈ map norm lines) || in_trie t w.
Proof.
  induction lines as [|l lines IH]; intros t w Ht Hw; [done|]. simpl.
  rewrite IH, add_word_spec by auto using add_word_not_Null.
  apply Bool.eq_iff_eq_true. rewrite !orb_true_iff, !bool_decide_eq_true, elem_of_cons.
  tauto.
Qed.

(** C21. [load] adds the dictionary to the trie: afterwards [checkWord] on
    a word of letters and apostrophes (in any case) never fails and
    accepts it exactly when its lower-case form is the normalised form
    of a line of the file or the word was accepted before. *)
Theorem load_checkWord head contents w :
  head <> Null -> Forall (fun ch => letter (tolower ch)) w ->
  checkWord (snd (load (Some contents) head)) w =
  Some (bool_decide (map tolower w ∈ map norm (getlines contents)) || in_trie head w).
Proof.
  intros Hh Hw. rewrite checkWord_in_trie by done. simpl.
  by rewrite fold_add_word_spec.
Qed.

(** C22. [checkWord] reads [next[-1]] (undefined behaviour) exactly when
    the word has a character that is neither a letter nor an apostrophe
    and the trie holds the part of the word before it as a path. *)
Theorem checkWord_ub t w :
  checkWord t w = None <->
  exists p c rest, w = p ++ c :: rest /\ Forall (fun ch => letter (tolower ch)) p /\
    walk t p <> Null /\ ~ letter (tolower c).
Proof.
  unfold checkWord. destruct (check_loop t w) eqn:E; simpl.
  - split; [done|]. intros (p & c & rest & -> & Hp & Hw & Hc).
    revert t E Hw. induction Hp as [|ch p Hch _ IH]; intros [|v e nx] E Hw; try done.
    + simpl in E. rewrite decide_False in E; [done|]. unfold letter in Hc. lia.
    + simpl in E. rewrite decide_True in E by (by apply letter_range). by eapply IH.
  - split; [intros _|done]. revert t E. induction w as [|ch w IH]; intros [|v e nx] E; try done.
    simpl in E. case_decide as Hr.
    + destruct (IH _ E) as (p & c & rest & -> & Hp & Hw & Hc).
      exists (ch :: p), c, rest. split_and!; [done| |done|done].
      constructor; [|done]. unfold letter. lia.
    + exists nil, ch, w. split_and!; [done|constructor|done|].
      unfold letter. destruct (getIndex_range (tolower ch)); lia.
Qed.

Lemma label_ok_add_word l s t : t <> Null -> label_ok l (add_word s t) <-> label_ok l t.
Proof.
  revert t. induction s as [|ch s IH]; intros t Ht; simpl; [by destruct t|].
  case_decide; [by apply IH|]. by destruct t.
Qed.

(** [load] labels every node it creates with the character of its index. *)
Lemma add_word_vals_ok s : forall t, vals_ok t -> vals_ok (add_word s t).
Proof.
  induction s as [|ch s IH]; intros t H; simpl; [by destruct t|].
  case_decide as Hl; [by apply IH|].
  destruct (add_word_child t (getIndex (tolower ch)) (tolower ch)) as [Hn _].
  destruct t as [|v e nx]; [done|]. cbn [child] in *.
  rewrite decide_True in * by (by apply letter_range). simpl in *. intros l Hlt.
  destruct (decide (l = _)) as [->|]; [|by apply H].
  destruct (H _ Hlt) as [Hlab Hv].
  split; [apply label_ok_add_word; [done|]|apply IH];
    destruct (nx (Z.to_nat (getIndex (tolower ch))));
    first [done | split; [done|lia] | intros; split; exact I].
Qed.

Lemma load_vals_ok dict t : vals_ok t -> vals_ok (snd (load dict t)).
Proof.
  destruct dict as [contents|]; simpl; [|done].
  generalize (getlines contents). intros lines. revert t.
  induction lines; simpl; auto using add_word_vals_ok.
Qed.

Lemma create_vals_ok : vals_ok create.
Proof. simpl. done. Qed.

(** ** Concrete dictionaries *)

(** A word whose characters are all letters or apostrophes. *)
Ltac letters := repeat constructor; unfold letter; vm_compute; congruence.

(** A dictionary file with one word per line. *)
Definition dict_file (ws : list (list ascii)) : list ascii :=
  concat (map (fun w => w ++ ["010"]) ws).

Lemma load_checkWord_witness :
  create <> Null /\ Forall (fun ch => letter (tolower ch)) ["C"; "a"; "t"] /\
  checkWord (snd (load (Some (dict_file [["c"; "a"; "t"]])) create)) ["C"; "a"; "t"] =
  Some (bool_decide (map tolower ["C"; "a"; "t"] ∈ map norm (getlines (dict_file [["c"; "a"; "t"]])))
        || in_trie create ["C"; "a"; "t"]).
Proof.
  assert (H1 : create <> Null) by discriminate.
  assert (H2 : Forall (fun ch => letter (tolower ch)) ["C"; "a"; "t"]) by letters.
  split_and!; [exact H1|exact H2|exact (load_checkWord create _ _ H1 H2)].
Defined.

(** The undefined behaviour is reached: "co-op" against a dictionary
    holding "co" reads [next[-1]] of the node of "co". *)
Example checkWord_hyphen :
  checkWord (snd (load (Some (dict_file [["c"; "o"]])) create)) ["c"; "o"; "-"; "o"; "p"] = None.
Proof. vm_compute. reflexivity. Qed.
