(* ===== verification/SpellCheck.v ===== *)
(** * SpellCheck: suggestions and the problems of a line

    [StudentSpellCheck::spellCheck] and [StudentSpellCheck::spellCheckLine]
    over the trie of [Trie].  The three nested loops of [spellCheck] are
    [word_loop] (over [j], the position of the substituted character),
    [letters_loop] (over the 27 children [l]) and [follow] (over [k], the
    rest of the word); their shared locals [curSug], [suggestions] and [s]
    are the record [sc_state].  The loop of [spellCheckLine] is [scan],
    with the local [pos.start] ([-1] while no token is open).

    The theorems show that every suggestion is a dictionary word that
    differs from the lower-cased word in exactly one position, that the
    suggestions are exactly those words, in order of position and of
    index, when [max_suggestions] is not reached, that up to 25 more than
    [max_suggestions] may be returned, and that [spellCheckLine] is safe
    and reports exactly the maximal tokens of letters and apostrophes that
    are not in the dictionary. *)

From S2P Require Import Prelude Text Trie.
From stdpp Require Import sets.
From Stdlib Require Import ZArith.

#[local] Open Scope char_scope.

Import StudentSpellCheck.

Module StudentSpellCheck.

(** ** [spellCheck] *)

(** The locals [curSug], [suggestions] and [s] of [spellCheck]. *)
Record sc_state := SCState {
  curSug : list ascii;
  sugs : list (list ascii);
  s : nat
}.

(** [for (int k = j + 1; k < word.size() && temp != nullptr; ++k)
    { c2 = tolower(word[k]); curSug.push_back(c2);
      temp = temp->next[getIndex(c2)]; }] *)
Fixpoint follow (temp : trie) (rest : list ascii) (sug : list ascii)
    : option (trie * list ascii) :=
  match rest with
  | [] => Some (temp, sug)
  | ch :: rest' =>
      match temp with
      | Null => Some (Null, sug)
      | Node _ _ _ =>
          let c2 := tolower ch in
          let! temp' := child temp (getIndex c2) in
          follow temp' rest' (sug ++ [c2])
      end
  end.

(** One iteration [l] of [for (int l = 0; l < 27; ++l)]: a child whose
    [val] differs from [c] starts a candidate, which is followed to the
    end of the word and pushed when it ends a word; [curSug] is cut back
    to its first [j] characters. *)
Definition letter_step (j : nat) (c : ascii) (rest : list ascii) (temp : trie)
    (st : sc_state) : option sc_state :=
  match temp with
  | Node v _ _ =>
      if decide (v <> c) then
        let! r := follow temp rest (curSug st ++ [v]) in
        let '(temp', sug) := r in
        let '(sg, s') :=
          if is_end temp' then (sugs st ++ [sug], S (s st)) else (sugs st, s st) in
        Some (SCState (take j sug) sg s')
      else Some st
  | Null => Some st
  end.

Fixpoint letters_loop (j : nat) (c : ascii) (rest : list ascii) (cur : trie)
    (ls : list nat) (st : sc_state) : option sc_state :=
  match ls with
  | [] => Some st
  | l :: ls' =>
      let! temp := child cur (Z.of_nat l) in
      let! st' := letter_step j c rest temp st in
      letters_loop j c rest cur ls' st'
  end.

(** [for (int s = 0, j = 0; j < word.size() && s < max_suggestions &&
    cur != nullptr; ++j)]: [w] is the part of the word from [j] on. *)
Fixpoint word_loop (j : nat) (w : list ascii) (max_suggestions : Z) (cur : trie)
    (st : sc_state) : option sc_state :=
  match w with
  | [] => Some st
  | ch :: rest =>
      if decide (Z.of_nat (s st) < max_suggestions)%Z then
        match cur with
        | Null => Some st
        | Node _ _ _ =>
            let c := tolower ch in
            let! st' := letters_loop j c rest cur (seq 0 27) st in
            let! cur' := child cur (getIndex c) in
            word_loop (S j) rest max_suggestions cur'
              (SCState (curSug st' ++ [c]) (sugs st') (s st'))
        end
      else Some st
  end.

(** [bool spellCheck(std::string word, int max_suggestions,
    std::vector<std::string>& suggestions)]: the result and the final
    [suggestions]; [None] for undefined behaviour. *)
Definition spellCheck (head : trie) (word : list ascii) (max_suggestions : Z)
    (suggestions : list (list ascii)) : option (bool * list (list ascii)) :=
  let! ok := checkWord head word in
  if ok then Some (true, suggestions)
  else
    let! st := word_loop 0 word max_suggestions head (SCState [] [] 0) in
    Some (false, sugs st).

(** ** [spellCheckLine] *)

(** [SpellCheck::Position]: the first and last column of a token. *)
Record position := Position { pos_start : Z; pos_end : Z }.

(** The body of [if (i == line.size() || getIndex(tolower(line[i])) == -1)]:
    the token open since [pos.start] (if any) is checked and pushed when
    it is not a word. *)
Definition break_step (head : trie) (line : list ascii) (i : nat) (start : Z)
    (problems : list position) : option (list position) :=
  if decide (start = -1)%Z then Some problems
  else
    let! ok := checkWord head (take (i - Z.to_nat start) (drop (Z.to_nat start) line)) in
    Some (if ok then problems else problems ++ [Position start (Z.of_nat i - 1)]).

(** [for (int i = 0; i <= line.size(); ++i)]: [rest] is the line from [i]
    on, [start] is [pos.start]. *)
Fixpoint scan (head : trie) (line : list ascii) (i : nat) (rest : list ascii)
    (start : Z) (problems : list position) : option (list position) :=
  match rest with
  | [] => break_step head line i start problems
  | ch :: rest' =>
      if decide (getIndex (tolower ch) = -1)%Z then
        let! problems' := break_step head line i start problems in
        scan head line (S i) rest' (-1) problems'
      else if decide (start = -1)%Z then scan head line (S i) rest' (Z.of_nat i) problems
      else scan head line (S i) rest' start problems
  end.

(** [void spellCheckLine(const std::string& line,
    std::vector<SpellCheck::Position>& problems)]: [problems] is cleared
    first. *)
Definition spellCheckLine (head : trie) (line : list ascii) : option (list position) :=
  scan head line 0 line (-1) [].

End StudentSpellCheck.

Import StudentSpellCheck.

(** ** What [spellCheck] computes *)

(** The character stored at index [l] of [next]. *)
Definition char_of_index (l : nat) : ascii :=
  if decide (l = 26) then "'" else ascii_of_nat (97 + l).

(** The 27 characters in the order of the loop over [l]. *)
Definition alphabet : list ascii := map char_of_index (seq 0 27).

(** The dictionary words obtained by replacing the character at [j] of the
    lower-cased word [lw] by another one, in the order of [alphabet]. *)
Definition one_sub_cands (t : trie) (lw : list ascii) (j : nat) : list (list ascii) :=
  match lw !! j with
  | None => []
  | Some c =>
      map (fun x => <[j := x]> lw)
        (filter (fun x => x <> c /\ in_trie t (<[j := x]> lw) = true) alphabet)
  end.

(** The groups of candidates taken while fewer than [max] have been
    taken before the group starts. *)
Fixpoint take_groups {A} (max : Z) (n : nat) (gs : list (list A)) : list A :=
  match gs with
  | [] => []
  | g :: gs' =>
      if decide (Z.of_nat n < max)%Z then g ++ take_groups max (n + length g) gs'
      else []
  end.

(** The suggestions for the lower-cased word [lw]. *)
Definition suggest_spec (max : Z) (t : trie) (lw : list ascii) : list (list ascii) :=
  take_groups max 0 (map (one_sub_cands t lw) (seq 0 (length lw))).

(** ** Characters and paths *)

Lemma char_of_index_ok l :
  l < 27 -> getIndex (char_of_index l) = Z.of_nat l /\ tolower (char_of_index l) = char_of_index l.
Proof. intros Hl. do 27 (destruct l as [|l]; [split; reflexivity|]). lia. Qed.

Lemma char_of_index_letter l : l < 27 -> letter (char_of_index l).
Proof. intros Hl. unfold letter. rewrite (proj1 (char_of_index_ok l Hl)). lia. Qed.

Lemma tolower_idem ch : tolower (tolower ch) = tolower ch.
Proof.
  unfold tolower. destruct (decide (65 <= nat_of_ascii ch <= 90)); [|by rewrite decide_False].
  rewrite nat_ascii_embedding by lia. rewrite decide_False by lia. done.
Qed.

Lemma walk_app t p q : walk t (p ++ q) = walk (walk t p) q.
Proof.
  revert t. induction p as [|ch p IH]; intros [|v e nx]; simpl; auto using walk_Null.
Qed.

Lemma walk_map_tolower t w : walk t (map tolower w) = walk t w.
Proof.
  revert t. induction w as [|ch w IH]; intros [|v e nx]; simpl; rewrite ?tolower_idem; auto.
Qed.

(** The loop over [k] follows [walk] and, when it reaches the end of the
    word, has pushed the rest of the word in lower case. *)
Lemma follow_spec temp rest sug :
  Forall (fun ch => letter (tolower ch)) rest ->
  exists ext, follow temp rest sug = Some (walk temp rest, sug ++ ext) /\
    (walk temp rest <> Null -> ext = map tolower rest).
Proof.
  intros Hr. revert temp sug. induction Hr as [|ch rest Hc _ IH]; intros temp sug.
  { exists nil. rewrite app_nil_r. by split. }
  destruct temp as [|v e nx].
  - exists nil. rewrite app_nil_r, walk_Null. by split.
  - simpl. rewrite decide_True by (by apply letter_range). simpl.
    destruct (IH (nx (Z.to_nat (getIndex (tolower ch)))) (sug ++ [tolower ch]))
      as (ext & -> & Hext).
    exists (tolower ch :: ext). rewrite <- app_assoc. split; [done|].
    intros Hn. by rewrite Hext.
Qed.

Lemma in_trie_char_of_index v e nx l rest :
  l < 27 -> in_trie (Node v e nx) (char_of_index l :: rest) = in_trie (nx l) rest.
Proof.
  intros Hl. destruct (char_of_index_ok l Hl) as [Hi Ht].
  unfold in_trie. cbn [walk]. by rewrite Ht, Hi, Nat2Z.id.
Qed.

(** The child at index [l] of a node whose labels are right holds the
    character [char_of_index l]. *)
Lemma child_label v e nx l v' e' f :
  vals_ok (Node v e nx) -> l < 27 -> nx l = Node v' e' f -> v' = char_of_index l.
Proof.
  intros Hv Hl E. destruct (Hv l Hl) as [Hlab _]. rewrite E in Hlab.
  destruct Hlab as [Hlv Hiv]. destruct (char_of_index_ok l Hl) as [Hi _].
  apply getIndex_inj_nat; [done|by apply char_of_index_letter|]. by rewrite Hiv, Hi, Nat2Z.id.
Qed.

(** One iteration of the loop over [l]. *)
Lemma letter_step_spec j c rest v e nx l p sg n :
  vals_ok (Node v e nx) -> l < 27 -> length p = j ->
  Forall (fun ch => letter (tolower ch)) rest ->
  letter_step j c rest (nx l) (SCState p sg n) =
  Some (if decide (char_of_index l <> c /\
                   in_trie (Node v e nx) (char_of_index l :: rest) = true)
        then SCState p (sg ++ [p ++ char_of_index l :: map tolower rest]) (S n)
        else SCState p sg n).
Proof.
  intros Hv Hl Hp Hr. rewrite in_trie_char_of_index by done.
  destruct (nx l) as [|v' e' f] eqn:E.
  { rewrite in_trie_Null, decide_False by (intros [_ ?]; done). done. }
  rewrite (child_label v e nx l v' e' f) by done. cbn [letter_step].
  destruct (decide (char_of_index l = c)) as [<-|Hxc].
  { by rewrite !decide_False by naive_solver. }
  rewrite decide_True by done. cbn [curSug sugs s].
  destruct (follow_spec (Node (char_of_index l) e' f) rest (p ++ [char_of_index l]) Hr)
    as (ext & -> & Hext). cbn iota beta.
  rewrite <- app_assoc, <- Hp, take_app_length. unfold in_trie.
  destruct (is_end _) eqn:Eend.
  - rewrite decide_True by done. rewrite Hext by (by intros Hn; rewrite Hn in Eend). done.
  - rewrite decide_False by (intros [_ ?]; done). done.
Qed.

(** The loop over [l] pushes the candidates of position [j] in the order
    of the indices. *)
Lemma letters_loop_spec j c rest v e nx ls p sg n :
  vals_ok (Node v e nx) -> Forall (fun l => l < 27) ls -> length p = j ->
  Forall (fun ch => letter (tolower ch)) rest ->
  let L := map (fun x => p ++ x :: map tolower rest)
             (filter (fun x => x <> c /\ in_trie (Node v e nx) (x :: rest) = true)
                (map char_of_index ls)) in
  letters_loop j c rest (Node v e nx) ls (SCState p sg n) =
  Some (SCState p (sg ++ L) (n + length L)).
Proof.
  intros Hv Hls Hp Hr. revert sg n. induction Hls as [|l ls Hl _ IH]; intros sg n.
  { simpl. by rewrite app_nil_r, Nat.add_0_r. }
  cbn [letters_loop child]. rewrite decide_True by lia. rewrite Nat2Z.id. simpl.
  rewrite (letter_step_spec j c rest v e nx) by done. cbn [map]. rewrite filter_cons. simpl.
  destruct (decide _); simpl; rewrite IH; [|done].
  by rewrite <- app_assoc, Nat.add_succ_r.
Qed.

Lemma in_trie_app t p q : in_trie t (p ++ q) = in_trie (walk t p) q.
Proof. unfold in_trie. by rewrite walk_app. Qed.

Lemma in_trie_cons_tolower t x q : in_trie t (x :: map tolower q) = in_trie t (x :: q).
Proof. destruct t as [|v e nx]; [done|]. unfold in_trie. simpl. by rewrite walk_map_tolower. Qed.

(** Replacing the character at [j] of the lower-cased word. *)
Lemma insert_lower w j ch r x :
  drop j w = ch :: r ->
  <[j := x]> (map tolower w) = take j (map tolower w) ++ x :: map tolower r.
Proof.
  intros Hd. rewrite <- (take_drop j (map tolower w)) at 1.
  assert (j < length w) by (apply lookup_lt_is_Some; rewrite <- (Nat.add_0_r j), <- lookup_drop, Hd; done).
  rewrite insert_app_r_alt by (rewrite length_take, length_map; lia).
  rewrite length_take, length_map, Nat.min_l, Nat.sub_diag by lia.
  by rewrite map_is_fmap, <- fmap_drop, Hd.
Qed.

Lemma lookup_lower w j ch r : drop j w = ch :: r -> map tolower w !! j = Some (tolower ch).
Proof.
  intros Hd. rewrite map_is_fmap, list_lookup_fmap, <- (Nat.add_0_r j), <- lookup_drop, Hd.
  done.
Qed.

(** The candidates of position [j], as the loop over [l] finds them from
    the node the prefix leads to. *)
Lemma cands_at head w j ch r v e nx :
  drop j w = ch :: r -> walk head (take j w) = Node v e nx ->
  one_sub_cands head (map tolower w) j =
  map (fun x => take j (map tolower w) ++ x :: map tolower r)
    (filter (fun x => x <> tolower ch /\ in_trie (Node v e nx) (x :: r) = true)
       (map char_of_index (seq 0 27))).
Proof.
  intros Hd Hw. unfold one_sub_cands. rewrite (lookup_lower w j ch r Hd).
  erewrite map_ext by (intros x; apply (insert_lower w j ch r x Hd)).
  f_equal. apply list_filter_iff. intros x.
  rewrite (insert_lower w j ch r x Hd), in_trie_app, firstn_map, walk_map_tolower, Hw.
  by rewrite in_trie_cons_tolower.
Qed.

Lemma vals_ok_walk t p :
  vals_ok t -> Forall (fun ch => letter (tolower ch)) p -> vals_ok (walk t p).
Proof.
  intros Hv Hp. revert t Hv. induction Hp as [|ch p Hc _ IH]; intros [|v e nx] Hv; simpl; auto.
  apply IH, Hv. apply letter_range in Hc. lia.
Qed.

(** Past a prefix that is not in the trie there are no candidates. *)
Lemma cands_null head w j j' :
  walk head (take j w) = Null -> j <= j' -> one_sub_cands head (map tolower w) j' = [].
Proof.
  intros Hn Hj. unfold one_sub_cands. destruct (_ !! j'); [|done].
  rewrite filter_none; [done|]. intros x [_ Hx].
  rewrite <- (take_drop j (<[j' := x]> _)), in_trie_app, take_insert_ge in Hx by lia.
  by rewrite firstn_map, walk_map_tolower, Hn, in_trie_Null in Hx.
Qed.

Lemma take_groups_nil {A} max n (gs : list (list A)) :
  Forall (fun g => g = []) gs -> take_groups max n gs = [].
Proof.
  intros Hg. revert n. induction Hg as [|g gs -> _ IH]; intros n; simpl; [done|].
  case_decide; [|done]. by rewrite IH.
Qed.

Lemma drop_cons_inv {A} (w : list A) j x r :
  drop j w = x :: r -> w !! j = Some x /\ drop (S j) w = r.
Proof.
  intros Hd. split.
  - by rewrite <- (Nat.add_0_r j), <- lookup_drop, Hd.
  - by rewrite <- Nat.add_1_r, <- drop_drop, Hd.
Qed.

Lemma take_groups_after_null head w j j0 n n' max :
  walk head (take j w) = Null -> j <= j0 ->
  take_groups max n (map (one_sub_cands head (map tolower w)) (seq j0 n')) = [].
Proof.
  intros Hn Hj. apply take_groups_nil, Forall_forall. intros g Hg.
  apply list_elem_of_In, in_map_iff in Hg as (j' & <- & Hj'). apply in_seq in Hj'.
  apply (cands_null head w j); [done|lia].
Qed.

(** The invariant of the loop over [j]: [curSug] is the lower-cased
    prefix, [cur] the node it leads to and [s] the number of suggestions;
    the loop appends the groups of candidates of the positions left, as
    [take_groups] selects them. *)
Lemma word_loop_spec head w max :
  vals_ok head -> Forall (fun ch => letter (tolower ch)) w ->
  forall r j sg, drop j w = r ->
  exists st', word_loop j r max (walk head (take j w))
                (SCState (take j (map tolower w)) sg (length sg)) = Some st' /\
    sugs st' = sg ++ take_groups max (length sg)
                       (map (one_sub_cands head (map tolower w)) (seq j (length r))).
Proof.
  intros Hv Hw r. induction r as [|ch r IH]; intros j sg Hd.
  { eexists. split; [done|]. by rewrite app_nil_r. }
  destruct (drop_cons_inv w j ch r Hd) as [Hj Hd'].
  assert (Hr : Forall (fun ch => letter (tolower ch)) (ch :: r)) by (rewrite <- Hd; by apply Forall_drop).
  apply Forall_cons in Hr as [Hch Hr]. cbn [word_loop s].
  replace (seq j (length (ch :: r))) with (j :: seq (S j) (length r)) by reflexivity.
  cbn [map take_groups].
  destruct (decide (Z.of_nat (length sg) < max)%Z); [|eexists; split; [done|]; by rewrite app_nil_r].
  destruct (walk head (take j w)) as [|v e nx] eqn:Hc.
  { eexists. split; [done|].
    rewrite (cands_null head w j j), (take_groups_after_null head w j) by (done || lia).
    by rewrite !app_nil_r. }
  rewrite (letters_loop_spec j (tolower ch) r v e nx) by
    (try (rewrite <- Hc; apply vals_ok_walk; [done|by apply Forall_take]);
     try (apply Forall_seq; intros; lia); try (rewrite length_take, length_map;
       apply lookup_lt_Some in Hj; lia); done).
  cbv zeta. cbn [child]. rewrite decide_True by (by apply letter_range).
  assert (Hc' : walk head (take (S j) w) = nx (Z.to_nat (getIndex (tolower ch)))).
  { by rewrite (take_S_r _ _ _ Hj), walk_app, Hc. }
  rewrite <- (cands_at head w j ch r v e nx Hd Hc).
  destruct (IH (S j) (sg ++ one_sub_cands head (map tolower w) j) Hd') as (st' & Hrun & Hsugs).
  exists st'. split.
  - rewrite <- Hrun, <- Hc', length_app. do 2 f_equal.
    by rewrite (take_S_r _ _ _ (lookup_lower w j ch r Hd)).
  - by rewrite Hsugs, <- app_assoc, length_app.
Qed.

(** ** Groups of candidates *)

Lemma take_groups_prefix {A} max n (gs : list (list A)) x :
  x ∈ take_groups max n gs -> x ∈ concat gs.
Proof.
  revert n. induction gs as [|g gs IH]; intros n; simpl; [done|].
  case_decide; [|set_solver]. rewrite !elem_of_app. intros [?|?]; eauto.
Qed.

Lemma take_groups_all {A} max n (gs : list (list A)) :
  (Z.of_nat (n + length (concat gs)) < max)%Z -> take_groups max n gs = concat gs.
Proof.
  revert n. induction gs as [|g gs IH]; intros n Hn; simpl; [done|].
  simpl in Hn. rewrite length_app in Hn.
  rewrite decide_True by lia. rewrite IH by lia. done.
Qed.

Lemma take_groups_length {A} max n (gs : list (list A)) :
  Forall (fun g => length g <= 26) gs ->
  (Z.of_nat (n + length (take_groups max n gs)) <= Z.max (Z.of_nat n) (max + 25))%Z.
Proof.
  intros Hg. revert n. induction Hg as [|g gs Hg _ IH]; intros n; simpl; [lia|].
  case_decide; simpl; [|lia]. specialize (IH (n + length g)). rewrite length_app. lia.
Qed.

Lemma length_filter_mono {A} (P Q : A -> Prop) `{!forall x, Decision (P x)}
    `{!forall x, Decision (Q x)} (l : list A) :
  (forall x, P x -> Q x) -> length (filter P l) <= length (filter Q l).
Proof.
  intros HPQ. induction l as [|x l IH]; [done|]. rewrite !filter_cons.
  repeat case_decide; simpl; naive_solver lia.
Qed.

Lemma alphabet_but_one l :
  l < 27 -> length (filter (fun x => x <> char_of_index l) alphabet) = 26.
Proof. intros Hl. do 27 (destruct l as [|l]; [vm_compute; reflexivity|]). lia. Qed.

Lemma letter_char_of_index c : letter c -> c = char_of_index (Z.to_nat (getIndex c)).
Proof.
  intros Hc. pose proof (letter_range c Hc).
  destruct (char_of_index_ok (Z.to_nat (getIndex c))) as [Hi _]; [lia|].
  apply getIndex_inj_nat; [done|apply char_of_index_letter; lia|]. rewrite Hi. lia.
Qed.

(** Each position contributes at most 26 candidates. *)
Lemma one_sub_cands_length t w j :
  Forall (fun ch => letter (tolower ch)) w ->
  length (one_sub_cands t (map tolower w) j) <= 26.
Proof.
  intros Hw. unfold one_sub_cands. destruct (map tolower w !! j) as [c|] eqn:E; [|simpl; lia].
  rewrite length_map. rewrite map_is_fmap, list_lookup_fmap in E.
  destruct (w !! j) as [ch|] eqn:Ej; [|done]. injection E as <-.
  pose proof (Forall_lookup_1 _ _ _ _ Hw Ej) as Hc. simpl in Hc.
  pose proof (letter_char_of_index _ Hc) as Hk.
  etransitivity; [apply (length_filter_mono _ (fun x => x <> char_of_index
    (Z.to_nat (getIndex (tolower ch))))); intros x [Hx _]; by rewrite <- Hk|].
  rewrite alphabet_but_one; [lia|]. apply letter_range in Hc. lia.
Qed.

(** Every candidate is a dictionary word that differs from the word in
    exactly the position it was made at. *)
Lemma one_sub_cands_sound t lw j d :
  d ∈ one_sub_cands t lw j ->
  exists c x, lw !! j = Some c /\ x <> c /\ x ∈ alphabet /\
    d = <[j := x]> lw /\ in_trie t d = true.
Proof.
  unfold one_sub_cands. destruct (lw !! j) as [c|]; [|set_solver].
  rewrite map_is_fmap. intros (x & -> & Hx)%list_elem_of_fmap.
  apply list_elem_of_filter in Hx as [[Hxc Hin] Hx]. eauto 10.
Qed.

Lemma concat_length_le {A} (gs : list (list A)) k :
  Forall (fun g => length g <= k) gs -> length (concat gs) <= k * length gs.
Proof. induction 1; simpl; rewrite ?length_app; lia. Qed.

Lemma cands_length_all t w :
  Forall (fun ch => letter (tolower ch)) w ->
  Forall (fun g => length g <= 26) (map (one_sub_cands t (map tolower w)) (seq 0 (length w))).
Proof.
  intros Hw. apply Forall_forall. intros g (j & <- & _)%list_elem_of_In%in_map_iff.
  by apply one_sub_cands_length.
Qed.

(** A word that is not in the dictionary gets the suggestions of
    [suggest_spec]. *)
Lemma spellCheck_miss head w max old :
  vals_ok head -> Forall (fun ch => letter (tolower ch)) w -> in_trie head w = false ->
  spellCheck head w max old = Some (false, suggest_spec max head (map tolower w)).
Proof.
  intros Hv Hw Hn. unfold spellCheck. rewrite checkWord_in_trie, Hn by done. simpl.
  destruct (word_loop_spec head w max Hv Hw w 0 [] (drop_0 w)) as (st & Hrun & Hs).
  rewrite !take_0 in Hrun. cbn [walk length] in Hrun. rewrite Hrun. simpl. rewrite Hs. unfold suggest_spec. by rewrite length_map.
Qed.

(** C23. [spellCheck] on a word of letters and apostrophes never fails:
    a dictionary word returns [true] and leaves [suggestions] alone;
    otherwise it returns [false] and the suggestions of [suggest_spec]:
    the dictionary words that replace one character of the lower-cased
    word by another, by position and then in the order of the 27
    children, taking a position's candidates only while fewer than
    [max_suggestions] have been found. *)
Theorem spellCheck_functional head w max old :
  vals_ok head -> Forall (fun ch => letter (tolower ch)) w ->
  spellCheck head w max old =
  Some (if in_trie head w then (true, old) else (false, suggest_spec max head (map tolower w))).
Proof.
  intros Hv Hw. destruct (in_trie head w) eqn:E; [|by apply spellCheck_miss].
  unfold spellCheck. rewrite checkWord_in_trie, E by done. done.
Qed.

(** C24. Every suggestion is a dictionary word of the same length as the
    word that differs from the lower-cased word in exactly one
    position. *)
Theorem spellCheck_sound head w max old sg :
  vals_ok head -> Forall (fun ch => letter (tolower ch)) w ->
  spellCheck head w max old = Some (false, sg) ->
  forall d, d ∈ sg -> in_trie head d = true /\ length d = length w /\
    exists j c x, map tolower w !! j = Some c /\ x <> c /\ d = <[j := x]> (map tolower w).
Proof.
  intros Hv Hw Hs d Hd. destruct (in_trie head w) eqn:E.
  { unfold spellCheck in Hs. by rewrite checkWord_in_trie, E in Hs. }
  rewrite spellCheck_miss in Hs by done. injection Hs as <-.
  apply take_groups_prefix, list_elem_of_In, in_concat in Hd as (g & Hg & Hd).
  apply in_map_iff in Hg as (j & <- & _). apply list_elem_of_In in Hd.
  destruct (one_sub_cands_sound _ _ _ _ Hd) as (c & x & Hj & Hxc & _ & -> & Hin).
  split_and!; [done|by rewrite length_insert, length_map|by exists j, c, x].
Qed.

(** C25. When [max_suggestions] exceeds 26 times the length of the word,
    every dictionary word that replaces one character of the lower-cased
    word by another letter or apostrophe is suggested. *)
Theorem spellCheck_complete head w max old j c x :
  vals_ok head -> Forall (fun ch => letter (tolower ch)) w -> in_trie head w = false ->
  (Z.of_nat (26 * length w) < max)%Z ->
  map tolower w !! j = Some c -> x ∈ alphabet -> x <> c ->
  in_trie head (<[j := x]> (map tolower w)) = true ->
  exists sg, spellCheck head w max old = Some (false, sg) /\ <[j := x]> (map tolower w) ∈ sg.
Proof.
  intros Hv Hw Hn Hmax Hj Hx Hxc Hin. rewrite spellCheck_miss by done. eexists. split; [done|].
  pose proof (concat_length_le _ _ (cands_length_all head w Hw)) as Hl.
  unfold suggest_spec. rewrite take_groups_all by (rewrite length_map, length_seq in *; lia).
  apply list_elem_of_In, in_concat. exists (one_sub_cands head (map tolower w) j). split.
  - apply in_map, in_seq. apply lookup_lt_Some in Hj. rewrite length_map in *. lia.
  - unfold one_sub_cands. rewrite Hj.
    apply (in_map (fun y => <[j:=y]> (map tolower w))), list_elem_of_In, list_elem_of_filter. done.
Qed.

(** C26. [max_suggestions] bounds the number of suggestions only up to
    25 more: the loop over the 27 children does not test [s]. *)
Theorem spellCheck_bound head w max old sg :
  vals_ok head -> Forall (fun ch => letter (tolower ch)) w ->
  spellCheck head w max old = Some (false, sg) ->
  (Z.of_nat (length sg) <= Z.max 0 (max + 25))%Z.
Proof.
  intros Hv Hw Hs. destruct (in_trie head w) eqn:E.
  { unfold spellCheck in Hs. by rewrite checkWord_in_trie, E in Hs. }
  rewrite spellCheck_miss in Hs by done. injection Hs as <-.
  pose proof (take_groups_length max 0 _ (cands_length_all head w Hw)) as Hb.
  unfold suggest_spec. rewrite length_map in *. lia.
Qed.

(** ** What [spellCheckLine] computes *)

(** The maximal runs of letters and apostrophes of [l], which starts at
    column [i], with their first column. *)
Fixpoint tokens_from (i : nat) (l : list ascii) : list (nat * list ascii) :=
  match l with
  | [] => []
  | ch :: l' =>
      let ts := tokens_from (S i) l' in
      if decide (letter (tolower ch)) then
        match ts with
        | (j, t) :: ts' => if decide (j = S i) then (i, ch :: t) :: ts' else (i, [ch]) :: ts
        | [] => [(i, [ch])]
        end
      else ts
  end.

Definition problem_of (tk : nat * list ascii) : position :=
  Position (Z.of_nat tk.1) (Z.of_nat (tk.1 + length tk.2) - 1).

(** The tokens that are not dictionary words, as ranges. *)
Definition problems_of (head : trie) (ts : list (nat * list ascii)) : list position :=
  map problem_of (filter (fun tk => in_trie head tk.2 = false) ts).

(** A token open since column [a], holding [p], meets the tokens from
    column [i] on. *)
Definition merge (a : nat) (p : list ascii) (i : nat) (ts : list (nat * list ascii))
    : list (nat * list ascii) :=
  match ts with
  | (j, t) :: ts' => if decide (j = i) then (a, p ++ t) :: ts' else (a, p) :: ts
  | [] => [(a, p)]
  end.

(** A token of [l] (which starts at column [i]) at column [a]: a
    non-empty run of letters and apostrophes that is the text of [l] at
    that column. *)
Definition tok_ok (i : nat) (l : list ascii) (tk : nat * list ascii) : Prop :=
  i <= tk.1 /\ tk.2 <> [] /\ Forall (fun ch => letter (tolower ch)) tk.2 /\
  take (length tk.2) (drop (tk.1 - i) l) = tk.2.

(** ** Tokens *)

Lemma tokens_first i l :
  match tokens_from i l with (j, _) :: _ => i <= j | [] => True end.
Proof.
  revert i. induction l as [|ch l IH]; intros i; simpl; [done|].
  specialize (IH (S i)). case_decide; destruct (tokens_from (S i) l) as [|[j t] ts];
    try case_decide; simpl; lia.
Qed.

Lemma merge_skip a p i l : merge a p i (tokens_from (S i) l) = (a, p) :: tokens_from (S i) l.
Proof.
  pose proof (tokens_first (S i) l). unfold merge.
  destruct (tokens_from (S i) l) as [|[j t] ts]; [done|]. by rewrite decide_False by lia.
Qed.

Lemma tokens_from_letter i ch l :
  letter (tolower ch) -> tokens_from i (ch :: l) = merge i [ch] (S i) (tokens_from (S i) l).
Proof. intros Hc. simpl. rewrite decide_True by done. by destruct (tokens_from (S i) l) as [|[j t] ts]. Qed.

Lemma tokens_from_other i ch l :
  ~ letter (tolower ch) -> tokens_from i (ch :: l) = tokens_from (S i) l.
Proof. intros Hc. simpl. by rewrite decide_False by done. Qed.

Lemma merge_merge a p i ch ts :
  merge a p i (merge i [ch] (S i) ts) = merge a (p ++ [ch]) (S i) ts.
Proof.
  unfold merge. destruct ts as [|[j t] ts]; [by rewrite decide_True|].
  case_decide; rewrite decide_True by done; by rewrite <- ?app_assoc.
Qed.

Lemma tok_ok_shift i ch l tk : tok_ok (S i) l tk -> tok_ok i (ch :: l) tk.
Proof.
  intros (Hi & Hn & Hl & Ht). split_and!; [lia|done|done|].
  by replace (tk.1 - i) with (S (tk.1 - S i)) by lia.
Qed.

(** The tokens are runs of letters and apostrophes of the line. *)
Lemma tokens_from_sound i l : Forall (tok_ok i l) (tokens_from i l).
Proof.
  revert i. induction l as [|ch l IH]; intros i; [constructor|].
  specialize (IH (S i)). destruct (decide (letter (tolower ch))) as [Hc|Hc].
  2: { rewrite tokens_from_other by done. eapply Forall_impl; [exact IH|]. apply tok_ok_shift. }
  rewrite tokens_from_letter by done. unfold merge.
  destruct (tokens_from (S i) l) as [|[j t] ts]; [repeat constructor; simpl; by rewrite ?Nat.sub_diag|].
  apply Forall_cons in IH as [Hjt Hts].
  assert (Hts' : Forall (tok_ok i (ch :: l)) ts)
    by (eapply Forall_impl; [exact Hts|apply tok_ok_shift]).
  case_decide as Hj; constructor; [|done| |constructor; [by apply tok_ok_shift|done]].
  - subst j. destruct Hjt as (_ & Hn & Hl & Ht). simpl in Hn, Hl, Ht.
    rewrite Nat.sub_diag, drop_0 in Ht.
    split_and!; simpl; [lia|done|by constructor|]. rewrite Nat.sub_diag. simpl. by rewrite Ht.
  - split_and!; simpl; [lia|done|by constructor|]. by rewrite Nat.sub_diag.
Qed.

(** ** The loop of [spellCheckLine] *)

Lemma problems_of_cons head tk ts :
  problems_of head (tk :: ts) = problems_of head [tk] ++ problems_of head ts.
Proof. unfold problems_of. rewrite !filter_cons, filter_nil. by case_decide. Qed.

(** Closing a token open since column [a]. *)
Lemma break_pending head line i a p probs :
  take (i - a) (drop a line) = p -> Forall (fun ch => letter (tolower ch)) p ->
  a + length p = i ->
  break_step head line i (Z.of_nat a) probs = Some (probs ++ problems_of head [(a, p)]).
Proof.
  intros Hp Hl Hlen. unfold break_step. rewrite decide_False by lia.
  rewrite Nat2Z.id, Hp, checkWord_in_trie by done. simpl.
  unfold problems_of. rewrite filter_cons, filter_nil.
  cbn [snd]. destruct (in_trie head p).
  - rewrite decide_False by done. by rewrite app_nil_r.
  - rewrite decide_True by done. unfold problem_of. simpl. repeat f_equal. lia.
Qed.

(** The invariant of the loop over [i]: with no token open the loop
    reports the problems of the tokens of the rest of the line; with a
    token [p] open since [a] it reports those of [p] merged with the
    tokens of the rest. *)
Lemma scan_spec head line : forall rest i probs, drop i line = rest ->
  scan head line i rest (-1) probs = Some (probs ++ problems_of head (tokens_from i rest)) /\
  (forall a p, take (i - a) (drop a line) = p -> Forall (fun ch => letter (tolower ch)) p ->
    a + length p = i ->
    scan head line i rest (Z.of_nat a) probs =
    Some (probs ++ problems_of head (merge a p i (tokens_from i rest)))).
Proof.
  induction rest as [|ch rest IH]; intros i probs Hd.
  { split; [by rewrite app_nil_r|]. intros a p Hp Hl Hlen. by apply break_pending. }
  destruct (drop_cons_inv line i ch rest Hd) as [Hi Hd'].
  split; [|intros a p Hp Hl Hlen]; cbn [scan].
  - destruct (decide (letter (tolower ch))) as [Hc|Hc].
    + rewrite decide_False, decide_True by (done || lia).
      rewrite tokens_from_letter by done.
      apply (IH (S i) probs Hd'); [|by constructor|simpl; lia].
      by rewrite Nat.sub_succ_l, Nat.sub_diag, Hd by lia.
    + rewrite decide_True by (unfold letter in Hc; lia).
      unfold break_step at 1. rewrite decide_True by done. rewrite tokens_from_other by done. simpl.
      by apply IH.
  - destruct (decide (letter (tolower ch))) as [Hc|Hc].
    + rewrite !decide_False by (done || lia).
      rewrite tokens_from_letter, merge_merge by done.
      apply (IH (S i) probs Hd'); [|by apply Forall_app; split; [|constructor]|].
      * rewrite Nat.sub_succ_l by lia. rewrite <- Hp. apply take_S_r.
        rewrite lookup_drop. by replace (a + (i - a)) with i by lia.
      * rewrite length_app. simpl. lia.
    + rewrite decide_True by (unfold letter in Hc; lia).
      rewrite tokens_from_other, merge_skip, problems_of_cons, app_assoc by done.
      rewrite (break_pending head line i a p) by done. cbv beta iota.
      by apply IH.
Qed.

(** C27. [spellCheckLine] never reads outside the trie and reports, in
    order, the maximal runs of letters and apostrophes of the line that
    are not dictionary words, each as its first and last column. *)
Theorem spellCheckLine_functional head line :
  spellCheckLine head line = Some (problems_of head (tokens_from 0 line)).
Proof. unfold spellCheckLine. by rewrite (proj1 (scan_spec head line line 0 [] (drop_0 line))). Qed.

(** C28. Every problem [spellCheckLine] reports is the range of a
    non-empty run of letters and apostrophes of the line that
    [checkWord] rejects. *)
Theorem spellCheckLine_sound head line probs :
  spellCheckLine head line = Some probs ->
  forall pr, pr ∈ probs -> exists a t,
    pr = Position (Z.of_nat a) (Z.of_nat (a + length t) - 1) /\ t <> [] /\
    Forall (fun ch => letter (tolower ch)) t /\ take (length t) (drop a line) = t /\
    checkWord head t = Some false.
Proof.
  unfold spellCheckLine. rewrite (proj1 (scan_spec head line line 0 [] (drop_0 line))).
  intros [= <-] pr Hpr. unfold problems_of in Hpr.
  apply list_elem_of_In, in_map_iff in Hpr as ([a t] & <- & Htk).
  apply list_elem_of_In, list_elem_of_filter in Htk as [Hn Htk]. simpl in Hn.
  pose proof (tokens_from_sound 0 line) as Hs. rewrite Forall_forall in Hs.
  destruct (Hs _ Htk) as (_ & Ht & Hl & Hd). simpl in *. rewrite Nat.sub_0_r in Hd.
  exists a, t. split_and!; try done. by rewrite checkWord_in_trie, Hn.
Qed.

(** ** A concrete dictionary *)

Definition sample_dict : trie :=
  snd (load (Some (dict_file [["c"; "a"; "t"]; ["b"; "a"; "t"]; ["h"; "a"; "t"]; ["c"; "a"; "r"]]))
         create).

Lemma sample_dict_vals_ok : vals_ok sample_dict.
Proof. apply load_vals_ok, create_vals_ok. Qed.

Lemma spellCheck_functional_witness :
  vals_ok sample_dict /\ Forall (fun ch => letter (tolower ch)) ["x"; "a"; "t"] /\
  spellCheck sample_dict ["x"; "a"; "t"] 2 [] =
  Some (if in_trie sample_dict ["x"; "a"; "t"] then (true, [])
        else (false, suggest_spec 2 sample_dict (map tolower ["x"; "a"; "t"]))).
Proof.
  assert (Hw : Forall (fun ch => letter (tolower ch)) ["x"; "a"; "t"]) by letters.
  split_and!; [exact sample_dict_vals_ok|exact Hw|].
  exact (spellCheck_functional _ _ 2 [] sample_dict_vals_ok Hw).
Defined.

Lemma spellCheck_sound_witness :
  vals_ok sample_dict /\ Forall (fun ch => letter (tolower ch)) ["C"; "a"; "x"] /\
  spellCheck sample_dict ["C"; "a"; "x"] 5 [] = Some (false, [["c"; "a"; "r"]; ["c"; "a"; "t"]]) /\
  forall d, d ∈ [["c"; "a"; "r"]; ["c"; "a"; "t"]] ->
    in_trie sample_dict d = true /\ length d = length ["C"; "a"; "x"] /\
    exists j c x, map tolower ["C"; "a"; "x"] !! j = Some c /\ x <> c /\
      d = <[j := x]> (map tolower ["C"; "a"; "x"]).
Proof.
  assert (Hw : Forall (fun ch => letter (tolower ch)) ["C"; "a"; "x"]) by letters.
  assert (Hs : spellCheck sample_dict ["C"; "a"; "x"] 5 [] =
               Some (false, [["c"; "a"; "r"]; ["c"; "a"; "t"]])) by (vm_compute; reflexivity).
  split_and!; [exact sample_dict_vals_ok|exact Hw|exact Hs|].
  exact (spellCheck_sound _ _ _ _ _ sample_dict_vals_ok Hw Hs).
Defined.

Lemma spellCheck_complete_witness :
  vals_ok sample_dict /\ Forall (fun ch => letter (tolower ch)) ["x"; "a"; "t"] /\
  in_trie sample_dict ["x"; "a"; "t"] = false /\
  (Z.of_nat (26 * length ["x"; "a"; "t"]) < 100)%Z /\
  map tolower ["x"; "a"; "t"] !! 0 = Some "x" /\ "b" ∈ alphabet /\ "b" <> "x" /\
  in_trie sample_dict (<[0 := "b"]> (map tolower ["x"; "a"; "t"])) = true /\
  exists sg, spellCheck sample_dict ["x"; "a"; "t"] 100 [] = Some (false, sg) /\
    <[0 := "b"]> (map tolower ["x"; "a"; "t"]) ∈ sg.
Proof.
  assert (Hw : Forall (fun ch => letter (tolower ch)) ["x"; "a"; "t"]) by letters.
  assert (Hn : in_trie sample_dict ["x"; "a"; "t"] = false) by (vm_compute; reflexivity).
  assert (Hm : (Z.of_nat (26 * length ["x"; "a"; "t"]) < 100)%Z) by (simpl; lia).
  assert (Hj : map tolower ["x"; "a"; "t"] !! 0 = Some "x") by reflexivity.
  assert (Hx : "b" ∈ alphabet) by (apply list_elem_of_In; simpl; tauto).
  assert (Hxc : "b" <> "x") by discriminate.
  assert (Hi : in_trie sample_dict (<[0 := "b"]> (map tolower ["x"; "a"; "t"])) = true)
    by (vm_compute; reflexivity).
  split_and!; try assumption. exact sample_dict_vals_ok.
  exact (spellCheck_complete _ _ _ [] _ _ _ sample_dict_vals_ok Hw Hn Hm Hj Hx Hxc Hi).
Defined.

(** The limit is exceeded: with [max_suggestions = 1], "xat" gets three
    suggestions, within the bound [1 + 25] of [spellCheck_bound]. *)
Lemma spellCheck_bound_witness :
  vals_ok sample_dict /\ Forall (fun ch => letter (tolower ch)) ["x"; "a"; "t"] /\
  spellCheck sample_dict ["x"; "a"; "t"] 1 [] =
    Some (false, [["b"; "a"; "t"]; ["c"; "a"; "t"]; ["h"; "a"; "t"]]) /\
  (Z.of_nat (length [["b"; "a"; "t"]; ["c"; "a"; "t"]; ["h"; "a"; "t"]]) <= Z.max 0 (1 + 25))%Z.
Proof.
  assert (Hw : Forall (fun ch => letter (tolower ch)) ["x"; "a"; "t"]) by letters.
  assert (Hs : spellCheck sample_dict ["x"; "a"; "t"] 1 [] =
    Some (false, [["b"; "a"; "t"]; ["c"; "a"; "t"]; ["h"; "a"; "t"]])) by (vm_compute; reflexivity).
  split_and!; [exact sample_dict_vals_ok|exact Hw|exact Hs|].
  exact (spellCheck_bound _ _ _ _ _ sample_dict_vals_ok Hw Hs).
Defined.

Lemma spellCheckLine_sound_witness :
  spellCheckLine sample_dict ["t"; "h"; "e"; " "; "c"; "a"; "t"; " "; "s"; "a"; "t"] =
    Some [Position 0 2; Position 8 10] /\
  forall pr, pr ∈ [Position 0 2; Position 8 10] -> exists a t,
    pr = Position (Z.of_nat a) (Z.of_nat (a + length t) - 1) /\ t <> [] /\
    Forall (fun ch => letter (tolower ch)) t /\
    take (length t) (drop a ["t"; "h"; "e"; " "; "c"; "a"; "t"; " "; "s"; "a"; "t"]) = t /\
    checkWord sample_dict t = Some false.
Proof.
  assert (Hs : spellCheckLine sample_dict ["t"; "h"; "e"; " "; "c"; "a"; "t"; " "; "s"; "a"; "t"] =
    Some [Position 0 2; Position 8 10]) by (vm_compute; reflexivity).
  split; [exact Hs|]. exact (spellCheckLine_sound _ _ _ Hs).
Defined.
